(** * BlueGridTask: the directory tree built from a flat list of file URLs,
      and the cache that serves it.

    Shallow embedding of [src/index.ts].

    - [transformToTree] folds the items of the upstream feed into a tree of
      directories and files.  The JavaScript objects it builds are modelled
      with their own properties in property order, and property reads see the
      members every object inherits from [Object.prototype].
    - the three built-ins the function calls ([encodeURI], [new URL],
      [decodeURIComponent]) are a [Platform]; the general results hold for
      every platform, the examples run on the model [node].
    - the request handler of [GET /api/files] and [updateCache] are split at
      their [await], so that the cache each half sees is explicit. *)

From Stdlib Require Import ZArith NArith Ascii String List Lia DecimalString.
From stdpp Require Import base tactics option list strings.

Local Open Scope string_scope.
Local Open Scope list_scope.

(** ** Completions: a JavaScript computation returns or throws *)

(** The errors the program can meet: [URIError] from [encodeURI] and
    [decodeURIComponent], [TypeError] from [new URL] and from calling a
    member that is not a function, and the error of a rejected [axios.get]
    with its [response.status] (when a response arrived) and whether
    [request] is set. *)
Inductive js_error : Type :=
| URIError
| TypeError
| AxiosError (response : option Z) (request : bool).

Inductive completion (A : Type) : Type :=
| Normal (a : A)
| Throw (e : js_error).
Arguments Normal {A} a.
Arguments Throw {A} e.

#[global] Instance completion_ret : MRet completion := fun A a => Normal a.
#[global] Instance completion_bind : MBind completion :=
  fun A B f c => match c with Normal a => f a | Throw e => Throw e end.

(** [xs.map(f)] where [f] may throw: the first throw wins. *)
Fixpoint map_throwing {A B} (f : A -> completion B) (xs : list A)
  : completion (list B) :=
  match xs with
  | [] => Normal []
  | x :: xs' => y ← f x; ys ← map_throwing f xs'; Normal (y :: ys)
  end.

(** ** Strings *)

(** [s.split(sep)] for a one-character separator. *)
Fixpoint split (sep : ascii) (s : string) : list string :=
  match s with
  | EmptyString => [EmptyString]
  | String c s' =>
      if Ascii.eqb c sep then EmptyString :: split sep s'
      else match split sep s' with
           | x :: xs => String c x :: xs
           | [] => [String c EmptyString]
           end
  end.

(** [s.endsWith(suffix)]. *)
Fixpoint endsWith (s suffix : string) : bool :=
  if String.eqb s suffix then true
  else match s with
       | EmptyString => false
       | String _ s' => endsWith s' suffix
       end.

(** Truthiness of a string: only the empty string is falsy. *)
Definition truthy (s : string) : bool :=
  match s with EmptyString => false | String _ _ => true end.

(** ** The platform *)

Record URL : Type := { hostname : string; pathname : string }.

Record Platform : Type := {
  encodeURI : string -> completion string;
  new_URL : string -> completion URL;
  decodeURIComponent : string -> completion string
}.

(** ** The data model (lines 6-13) *)

Record Item : Type := { fileUrl : string }.

#[local] Set Warnings "-register-all".

(** An element of a directory's array: a file name, or an object with one
    own property, the subdirectory's name, whose value is its array.  The
    function never gives such an object a second property. *)
Inductive entry : Type :=
| File (name : string)
| Dir (name : string) (children : list entry).

(** The root object: its own properties in property order. *)
Definition Tree : Type := list (string * list entry).

(** ** Property access on plain objects *)

(** The members a plain object inherits from [Object.prototype]; each is a
    function, except [__proto__], whose getter returns the prototype.  All
    are truthy, and none has a member [find]. *)
Definition Object_prototype : list string :=
  [ "constructor"; "__defineGetter__"; "__defineSetter__"; "hasOwnProperty";
    "__lookupGetter__"; "__lookupSetter__"; "isPrototypeOf";
    "propertyIsEnumerable"; "toString"; "valueOf"; "__proto__";
    "toLocaleString" ].

Definition inherited (key : string) : bool :=
  bool_decide (key ∈ Object_prototype).

(** Own property of the root object. *)
Fixpoint own_property (tree : Tree) (key : string) : option (list entry) :=
  match tree with
  | [] => None
  | (k, v) :: tree' => if decide (k = key) then Some v else own_property tree' key
  end.

(** A property key that is an array index: the canonical decimal numeral of
    an integer below 2^32 - 1.  Such keys are listed first, in ascending
    order, whatever the order of creation. *)
Definition digit_value (c : ascii) : option N :=
  let n := N_of_ascii c in
  if ((48 <=? n) && (n <=? 57))%N then Some (n - 48)%N else None.

Fixpoint decimal (acc : N) (s : string) : option N :=
  match s with
  | EmptyString => Some acc
  | String c s' =>
      match digit_value c with
      | Some d => decimal (acc * 10 + d)%N s'
      | None => None
      end
  end.

Definition array_index (key : string) : option N :=
  match key with
  | EmptyString => None
  | String c rest =>
      if Ascii.eqb c "0" && truthy rest then None
      else match decimal 0 key with
           | Some n => if (n <? 4294967295)%N then Some n else None
           | None => None
           end
  end.

Fixpoint define_index (n : N) (key : string) (v : list entry) (tree : Tree)
  : Tree :=
  match tree with
  | [] => [(key, v)]
  | (k, w) :: tree' =>
      match array_index k with
      | Some m => if (m <? n)%N then (k, w) :: define_index n key v tree'
                  else (key, v) :: tree
      | None => (key, v) :: tree
      end
  end.

(** Creation of a new own property of the root object. *)
Definition define_property (key : string) (v : list entry) (tree : Tree)
  : Tree :=
  match array_index key with
  | Some n => define_index n key v tree
  | None => tree ++ [(key, v)]
  end.

(** The array held by an existing own property has changed in place. *)
Fixpoint store (key : string) (v : list entry) (tree : Tree) : Tree :=
  match tree with
  | [] => []
  | (k, w) :: tree' =>
      if decide (k = key) then (k, v) :: tree' else (k, w) :: store key v tree'
  end.

(** ** transformToTree (lines 45-88) *)

(** Line 65, the test of [find]:
    [typeof entry === 'object' && entry !== null && entry[part]].
    [entry[part]] is the array when [part] is the object's own key, and an
    inherited member, truthy too, when [part] names one. *)
Definition has_member (part : string) (e : entry) : bool :=
  match e with
  | File _ => false
  | Dir k _ => bool_decide (k = part) || inherited part
  end.

(** Line 78, the test of [find]:
    [entry !== null && typeof entry === 'string' && entry === part]. *)
Definition is_file (part : string) (e : entry) : bool :=
  match e with
  | File n => bool_decide (n = part)
  | Dir _ _ => false
  end.

(** Lines 63-82 for the parts after the host name.  [arr] is the array
    [currentTree[currentDirName]]; the recursion on [rest] is the loop, and
    the array it returns is [arr] after the pushes of the loop.  The test
    [index < parts.length - 1] is [rest ≠ []].  Navigating into the found
    directory (lines 73-74) is the recursive call on its array, written
    back at the index where [find] met it; a directory made on line 68 is
    pushed with the array the rest of the loop fills. *)
Fixpoint walk (isDirectoryUrl : bool) (parts : list string) (arr : list entry)
  : completion (list entry) :=
  match parts with
  | [] => Normal arr
  | part :: rest =>
      let last := match rest with [] => true | _ => false end in
      if negb last || isDirectoryUrl then
        match list_find (fun e => has_member part e) arr with
        | Some (i, Dir k sub) =>
            if last then Normal arr
            else if decide (k = part) then
              sub' ← walk isDirectoryUrl rest sub;
              Normal (<[i := Dir k sub']> arr)
            else
              (* [foundDirectory[part]] is an inherited member: the next
                 round calls its [find], which is undefined *)
              Throw TypeError
        | Some (_, File _) => Throw TypeError (* never: [has_member] rejects strings *)
        | None =>
            if last then Normal (arr ++ [Dir part []])
            else
              sub' ← walk isDirectoryUrl rest [];
              Normal (arr ++ [Dir part sub'])
        end
      else
        match find (is_file part) arr with
        | Some (File found) =>
            if truthy found then Normal arr else Normal (arr ++ [File part])
        | _ => Normal (arr ++ [File part])
        end
  end.

(** Lines 56-83 for one item: the host name (lines 57-62), then the walk.
    When the host name is an inherited member of the root object, line 59
    finds it truthy and creates nothing; a later part then calls [find] on
    that member. *)
Definition insert_parts (isDirectoryUrl : bool) (parts : list string)
    (tree : Tree) : completion Tree :=
  match parts with
  | [] => Normal tree
  | host :: rest =>
      match own_property tree host with
      | Some arr =>
          arr' ← walk isDirectoryUrl rest arr;
          Normal (store host arr' tree)
      | None =>
          if inherited host then
            match rest with
            | [] => Normal tree
            | _ :: _ => Throw TypeError
            end
          else
            arr' ← walk isDirectoryUrl rest [];
            Normal (define_property host arr' tree)
      end
  end.

Section Builder.
Variable P : Platform.

(** Lines 49-52: the parts of an item and whether it is a directory. *)
Definition decompose (item : Item) : completion (bool * list string) :=
  encodedUrl ← encodeURI P (fileUrl item);
  url ← new_URL P encodedUrl;
  let isDirectoryUrl := endsWith (fileUrl item) "/" in
  segments ← map_throwing (decodeURIComponent P)
               (filter (fun part => truthy part) (split "/" (pathname url)));
  Normal (isDirectoryUrl, hostname url :: segments).

Definition add_item (tree : Tree) (item : Item) : completion Tree :=
  d ← decompose item;
  insert_parts (fst d) (snd d) tree.

(** [items.forEach(...)] on the tree built so far. *)
Fixpoint forEach (items : list Item) (tree : Tree) : completion Tree :=
  match items with
  | [] => Normal tree
  | item :: items' => tree' ← add_item tree item; forEach items' tree'
  end.

Definition transformToTree (items : list Item) : completion Tree :=
  forEach items [].
End Builder.

(** ** A model of the platform

    Strings stand for JavaScript strings whose code units are below U+0100,
    one character per code unit. *)
Module Ecma.

Definition in_string (c : ascii) (s : string) : bool :=
  existsb (Ascii.eqb c) (list_ascii_of_string s).

Definition between (lo hi : N) (c : ascii) : bool :=
  let n := N_of_ascii c in ((lo <=? n) && (n <=? hi))%N.

Definition is_lower : ascii -> bool := between 97 122.
Definition is_upper : ascii -> bool := between 65 90.
Definition is_digit : ascii -> bool := between 48 57.

(** The characters [encodeURI] leaves alone: letters, digits, the marks
    and the reserved characters of a URI, and the number sign. *)
Definition uri_kept (c : ascii) : bool :=
  is_lower c || is_upper c || is_digit c
  || in_string c "-_.!~*'()" || in_string c ";/?:@&=+$," || in_string c "#".

Definition hex_digit (n : N) : ascii :=
  nth (N.to_nat n) (list_ascii_of_string "0123456789ABCDEF") "0"%char.

Definition escape (byte : N) : string :=
  String "%" (String (hex_digit (byte / 16)) (String (hex_digit (byte mod 16))
    EmptyString)).

(** One code unit, as the escapes of the bytes of its UTF-8 form. *)
Definition encode_unit (c : ascii) : string :=
  let n := N_of_ascii c in
  if uri_kept c then String c EmptyString
  else if (n <? 128)%N then escape n
  else (escape (192 + n / 64) ++ escape (128 + n mod 64))%string.

Fixpoint encode_all (s : string) : string :=
  match s with
  | EmptyString => EmptyString
  | String c s' => (encode_unit c ++ encode_all s')%string
  end.

(** [encodeURI] throws on a lone surrogate only; there is none below
    U+0100.  The percent sign is not among the kept characters. *)
Definition encodeURI (s : string) : completion string := Normal (encode_all s).

Definition hex_value (c : ascii) : option N :=
  let n := N_of_ascii c in
  if is_digit c then Some (n - 48)%N
  else if between 65 70 c then Some (n - 55)%N
  else if between 97 102 c then Some (n - 87)%N
  else None.

Definition hex_byte (h l : ascii) : option N :=
  match hex_value h, hex_value l with
  | Some a, Some b => Some (a * 16 + b)%N
  | _, _ => None
  end.

(** [decodeURIComponent]: every escape is decoded; a byte of 128 or more
    must start a well-formed UTF-8 sequence.  Sequences for code points
    of U+0100 and above have no image in this model of strings and are
    answered with [URIError] as well. *)
Fixpoint decodeURIComponent (s : string) : completion string :=
  match s with
  | EmptyString => Normal EmptyString
  | String "%" (String h (String l rest)) =>
      match hex_byte h l with
      | None => Throw URIError
      | Some b =>
          if (b <? 128)%N then
            r ← decodeURIComponent rest; Normal (String (ascii_of_N b) r)
          else if (b =? 194)%N || (b =? 195)%N then
            match rest with
            | String "%" (String h2 (String l2 rest2)) =>
                match hex_byte h2 l2 with
                | Some b2 =>
                    if ((128 <=? b2) && (b2 <? 192))%N then
                      r ← decodeURIComponent rest2;
                      Normal (String (ascii_of_N ((b - 192) * 64 + (b2 - 128))) r)
                    else Throw URIError
                | None => Throw URIError
                end
            | _ => Throw URIError
            end
          else Throw URIError
      end
  | String "%" _ => Throw URIError
  | String c rest => r ← decodeURIComponent rest; Normal (String c r)
  end.

(** *** The URL parser, on absolute [http] and [https] URLs

    The model reads [scheme://host/path?query#fragment] where the scheme
    is [http] or [https] in lower case and the host is a domain of lower
    case letters, digits, hyphens and dots whose last label starts with
    a letter and none of whose labels starts with [xn--].  On these the
    host name is the host and the path name is the path with its dot
    segments resolved.  Any other string is answered with [TypeError];
    user names, ports, numeric hosts and other schemes are outside the
    model. *)

Fixpoint strip_prefix (p s : string) : option string :=
  match p, s with
  | EmptyString, _ => Some s
  | String a p', String b s' => if Ascii.eqb a b then strip_prefix p' s' else None
  | String _ _, EmptyString => None
  end.

(** The part of [s] before the first character of [stops], and the rest. *)
Fixpoint break_at (stops : string) (s : string) : string * string :=
  match s with
  | EmptyString => (EmptyString, EmptyString)
  | String c s' =>
      if in_string c stops then (EmptyString, s)
      else let '(a, b) := break_at stops s' in (String c a, b)
  end.

Definition host_char (c : ascii) : bool :=
  is_lower c || is_digit c || in_string c "-.".

Definition starts_with_letter (label : string) : bool :=
  match label with String c _ => is_lower c | EmptyString => false end.

Definition punycode_label (label : string) : bool :=
  match strip_prefix "xn--" label with Some _ => true | None => false end.

Definition valid_host (host : string) : bool :=
  let labels := split "." host in
  forallb host_char (list_ascii_of_string host)
  && starts_with_letter (List.last labels EmptyString)
  && negb (existsb punycode_label labels).

Definition single_dot (seg : string) : bool :=
  bool_decide (seg ∈ ["."; "%2e"; "%2E"]).

Definition double_dot (seg : string) : bool :=
  bool_decide (seg ∈ [".."; ".%2e"; ".%2E"; "%2e."; "%2E."; "%2e%2e";
                      "%2e%2E"; "%2E%2e"; "%2E%2E"]).

(** The path state of the parser: [path] is the list of segments so far,
    [segs] the segments still to read, the last of which ends the path. *)
Fixpoint path_state (path : list string) (segs : list string) : list string :=
  match segs with
  | [] => path
  | seg :: segs' =>
      let at_end := match segs' with [] => true | _ => false end in
      let path' :=
        if double_dot seg then
          if at_end then removelast path ++ [EmptyString] else removelast path
        else if single_dot seg then
          if at_end then path ++ [EmptyString] else path
        else path ++ [seg] in
      path_state path' segs'
  end.

Definition serialize_path (path : list string) : string :=
  fold_right (fun seg acc => (String "/" seg ++ acc)%string) EmptyString path.

Definition parse_path (p : string) : string :=
  let body := match p with String "/" p' => p' | _ => p end in
  serialize_path (path_state [] (split "/" body)).

Definition after_scheme (s : string) : option string :=
  match strip_prefix "https://" s with
  | Some r => Some r
  | None => strip_prefix "http://" s
  end.

Definition new_URL (s : string) : completion URL :=
  match after_scheme s with
  | None => Throw TypeError
  | Some r =>
      let '(host, tail) := break_at "/?#" r in
      let '(p, _) := break_at "?#" tail in
      if valid_host host
      then Normal {| hostname := host; pathname := parse_path p |}
      else Throw TypeError
  end.

End Ecma.

Definition node : Platform :=
  {| encodeURI := Ecma.encodeURI;
     new_URL := Ecma.new_URL;
     decodeURIComponent := Ecma.decodeURIComponent |}.

Definition item (url : string) : Item := {| fileUrl := url |}.

(** ** The cache and its two writers (lines 16-42 and 94-129) *)

Record Snapshot : Type := { tree : Tree; timestamp : Z }.

Definition CACHE_DURATION_MS : Z := 60000.

(** What the awaited [axios.get] settles to: the items of the response, or
    the error it rejects with. *)
Inductive axios_result : Type :=
| Resolved (items : list Item)
| Rejected (e : js_error).

(** What the handler sends. *)
Inductive Response : Type :=
| Send (body : Tree)
| Status (code : Z) (error : string).

(** What a run does besides answering and writing the cache. *)
Inductive effect : Type :=
| ConsoleLog (message : string)
| ConsoleError (message : string)
| AxiosGet (url : string).

Definition endpoint : string := "https://rest-test-eight.vercel.app/api/test".

Section Cache.
Variable P : Platform.

(** Lines 16-22, after [axios.get] has settled. *)
Definition fetchDataAndTransform (settled : axios_result) : completion Tree :=
  match settled with
  | Resolved items => transformToTree P items
  | Rejected e => Throw e
  end.

(** Lines 112-127: the answer to a failed fetch. *)
Definition error_response (err : js_error) : Response :=
  match err with
  | AxiosError (Some status) _ =>
      if (status =? 504)%Z then Status 504 "Gateway Timeout"
      else if (status =? 502)%Z then Status 502 "Bad Gateway"
      else Status 500 "Failed to fetch data"
  | AxiosError None true => Status 502 "Bad Gateway"
  | _ => Status 500 "Failed to fetch data"
  end.

(** The handler up to its [await] (lines 95-105): it answers from the
    cache, or calls the fetch and suspends. *)
Inductive suspended : Type :=
| Answered (r : Response)
| Awaiting.

Definition get_begin (cache : option Snapshot) (now : Z)
  : suspended * list effect :=
  match cache with
  | Some c =>
      if (now - timestamp c <? CACHE_DURATION_MS)%Z
      then (Answered (Send (tree c)), [ConsoleLog "Serving from cache"])
      else (Awaiting, [ConsoleLog "Fetching new data"; AxiosGet endpoint])
  | None => (Awaiting, [ConsoleLog "Fetching new data"; AxiosGet endpoint])
  end.

(** The handler after its [await] (lines 105-128), on the cache as it is
    then and with the clock read at line 107. *)
Definition get_resume (cache : option Snapshot) (settled : axios_result)
    (now : Z) : option Snapshot * Response * list effect :=
  match fetchDataAndTransform settled with
  | Normal data => (Some {| tree := data; timestamp := now |}, Send data, [])
  | Throw err =>
      (cache, error_response err, [ConsoleLog "Error while fetching new data"])
  end.

(** A request that no other writer interleaves with. *)
Definition get (cache : option Snapshot) (now : Z) (settled : axios_result)
    (later : Z) : option Snapshot * Response * list effect :=
  match get_begin cache now with
  | (Answered r, log) => (cache, r, log)
  | (Awaiting, log) =>
      let '(cache', r, log') := get_resume cache settled later in
      (cache', r, log ++ log')
  end.

(** [updateCache] (lines 29-42): the clock is read before the fetch is
    called (line 32), the cache is written after it has settled. *)
Definition updateCache_begin (now : Z) : Z * list effect :=
  (now, [AxiosGet endpoint]).

Definition updateCache_resume (cache : option Snapshot) (started : Z)
    (settled : axios_result) : option Snapshot * list effect :=
  match fetchDataAndTransform settled with
  | Normal data =>
      (Some {| tree := data; timestamp := started |},
       [ConsoleLog "Cache updated successfully"])
  | Throw _ => (cache, [ConsoleError "Error while updating cache"])
  end.

Definition updateCache (cache : option Snapshot) (now : Z)
    (settled : axios_result) : option Snapshot * list effect :=
  let '(started, log) := updateCache_begin now in
  let '(cache', log') := updateCache_resume cache started settled in
  (cache', log ++ log').
End Cache.

(** ** Notions the properties are stated with *)

(** The name an entry bears, with its kind ([true] for a subdirectory). *)
Definition key (e : entry) : bool * string :=
  match e with
  | File n => (false, n)
  | Dir n _ => (true, n)
  end.

Definition name_of (e : entry) : string := snd (key e).

(** [sequence_in l arr]: [l] is [arr] or the array of a subdirectory
    somewhere below it. *)
Inductive sequence_in : list entry -> list entry -> Prop :=
| sequence_here arr : sequence_in arr arr
| sequence_below arr k c l :
    Dir k c ∈ arr -> sequence_in l c -> sequence_in l arr.

(** [grows old new]: position by position, [new] starts with the entries of
    [old], each with the same name and kind, each subdirectory grown in the
    same way; whatever else [new] holds comes after them. *)
Inductive grows : list entry -> list entry -> Prop :=
| grows_nil ext : grows [] ext
| grows_file n old new : grows old new -> grows (File n :: old) (File n :: new)
| grows_dir n c c' old new :
    grows c c' -> grows old new -> grows (Dir n c :: old) (Dir n c' :: new).

(** The same for the root object: its keys stay, in their order, and the
    array of each has grown. *)
Definition grows_root (old new : Tree) : Prop :=
  sublist (old.*1) (new.*1) ∧
  ∀ host arr, own_property old host = Some arr ->
    ∃ arr', own_property new host = Some arr' ∧ grows arr arr'.

(** The array reached from [arr] through the subdirectories [path]. *)
Definition is_dir_named (d : string) (e : entry) : bool :=
  match e with
  | Dir k _ => bool_decide (k = d)
  | File _ => false
  end.

Fixpoint children_at (path : list string) (arr : list entry)
  : option (list entry) :=
  match path with
  | [] => Some arr
  | d :: path' =>
      match find (is_dir_named d) arr with
      | Some (Dir _ c) => children_at path' c
      | _ => None
      end
  end.

(** The names, in order, under the directory [path] of [host]; none when
    that directory is not in the tree. *)
Definition siblings (t : Tree) (host : string) (path : list string)
  : list (bool * string) :=
  match own_property t host with
  | Some arr =>
      match children_at path arr with
      | Some l => key <$> l
      | None => []
      end
  | None => []
  end.

(** The tree after the first [k] items. *)
Definition tree_after (P : Platform) (items : list Item) (k : nat) : Tree :=
  match transformToTree P (take k items) with
  | Normal t => t
  | Throw _ => []
  end.

(** Item number [k] is the one that brings the name [e] under [path]. *)
Definition introduces (P : Platform) (items : list Item) (k : nat)
    (host : string) (path : list string) (e : bool * string) : Prop :=
  (e ∉ siblings (tree_after P items k) host path) ∧
  (e ∈ siblings (tree_after P items (S k)) host path).

Definition precedes {A} (x y : A) (l : list A) : Prop :=
  ∃ l1 l2 l3, l = l1 ++ x :: l2 ++ y :: l3.

(** [Uniq arr]: in [arr] and in every array below it, no two entries have
    the same kind and the same name. *)
Inductive Uniq : list entry -> Prop :=
| Uniq_intro arr :
    NoDup (key <$> arr) -> (∀ k c, Dir k c ∈ arr -> Uniq c) -> Uniq arr.

(** The same at the root: distinct keys, and [Uniq] arrays. *)
Definition Sound (t : Tree) : Prop :=
  NoDup (t.*1) ∧ ∀ host arr, (host, arr) ∈ t -> Uniq arr.

(** What the walk relies on from [decodeURIComponent]: decoding a
    non-empty string gives a non-empty string. *)
Definition decodes_nonempty (P : Platform) : Prop :=
  ∀ s r, decodeURIComponent P s = Normal r -> truthy s = true -> truthy r = true.

(** ** Notions for the further properties *)

(** Whether the path [parts] leads, below [arr], to an entry of the kind
    the item asks for: a subdirectory when [isDirectoryUrl], a file
    otherwise. *)
Fixpoint contains (isDirectoryUrl : bool) (parts : list string)
    (arr : list entry) : bool :=
  match parts with
  | [] => true
  | part :: rest =>
      match rest with
      | [] =>
          if isDirectoryUrl then existsb (is_dir_named part) arr
          else existsb (is_file part) arr
      | _ :: _ =>
          match find (is_dir_named part) arr with
          | Some (Dir _ c) => contains isDirectoryUrl rest c
          | _ => false
          end
      end
  end.

Definition tree_contains (t : Tree) (isDirectoryUrl : bool)
    (parts : list string) : bool :=
  match parts with
  | [] => true
  | host :: rest =>
      match own_property t host with
      | Some arr => contains isDirectoryUrl rest arr
      | None => false
      end
  end.

(** The host name of an item, when it decomposes. *)
Definition host_is (P : Platform) (h : string) (it : Item) : bool :=
  match decompose P it with
  | Normal (_, host :: _) => bool_decide (host = h)
  | _ => false
  end.

(** [AllNames S arr]: in [arr] and in every array below it, the name of
    each entry satisfies [S]. *)
Inductive AllNames (S : string -> Prop) : list entry -> Prop :=
| AllNames_intro arr :
    (∀ e, e ∈ arr -> S (name_of e)) ->
    (∀ k c, Dir k c ∈ arr -> AllNames S c) -> AllNames S arr.

(** [h] is the host name of one of the items, [n] one of the segments
    after the host name. *)
Definition host_of (P : Platform) (items : list Item) (h : string) : Prop :=
  ∃ it isd rest, it ∈ items ∧ decompose P it = Normal (isd, h :: rest).

Definition segment_of (P : Platform) (items : list Item) (n : string) : Prop :=
  ∃ it isd host rest,
    it ∈ items ∧ decompose P it = Normal (isd, host :: rest) ∧ n ∈ rest.

(** The invariant of the fold: hosts and names come from the items read
    so far. *)
Definition from_items (P : Platform) (items : list Item) (t : Tree) : Prop :=
  (∀ h, h ∈ t.*1 -> host_of P items h) ∧
  ∀ h arr, (h, arr) ∈ t -> AllNames (segment_of P items) arr.

(** The fetch of one of the two writers settles: the request handler's,
    with the clock read at line 107, or the refresher's, with the clock
    it read at line 32 before fetching.  Whatever the interleaving of
    requests and refreshes, the cache is written at these points only. *)
Inductive settlement : Type :=
| RequestSettled (settled : axios_result) (later : Z)
| RefreshSettled (started : Z) (settled : axios_result).

Definition write (P : Platform) (cache : option Snapshot) (s : settlement)
  : option Snapshot :=
  match s with
  | RequestSettled settled later => (get_resume P cache settled later).1.1
  | RefreshSettled started settled =>
      (updateCache_resume P cache started settled).1
  end.

Definition writes (P : Platform) (ss : list settlement)
    (cache : option Snapshot) : option Snapshot :=
  fold_left (write P) ss cache.

Definition fetched (s : settlement) : axios_result :=
  match s with
  | RequestSettled settled _ => settled
  | RefreshSettled _ settled => settled
  end.

(** A path segment that is written in a URL as it is: not empty, free of
    the separators of path, query and fragment, and not a dot segment. *)
Definition plain_segment (s : string) : bool :=
  truthy s
  && forallb (fun c => negb (Ecma.in_string c "/?#")) (list_ascii_of_string s)
  && negb (String.eqb s ".") && negb (String.eqb s "..").

(** The URL [https://host/seg1/.../segn], with a final slash or without. *)
Definition plain_url (host : string) (segs : list string) (slash : bool)
  : string :=
  ("https://" ++ host ++ Ecma.serialize_path segs
     ++ (if slash then "/" else EmptyString))%string.

Fixpoint last_char (s : string) : option ascii :=
  match s with
  | EmptyString => None
  | String c s' =>
      match last_char s' with
      | Some d => Some d
      | None => Some c
      end
  end.

(** No character of [s] is one of [stops]. *)
Definition clean (stops : string) (s : string) : bool :=
  forallb (fun c => negb (Ecma.in_string c stops)) (list_ascii_of_string s).

(** ** The time stamp of the log line (lines 36-37)

    [new Date(newCache.timestamp)] is read through its getters, which give
    the fields of the local time; [getMonth] counts from 0. *)
Record LocalTime : Type := {
  getFullYear : N; getMonth : N; getDate : N;
  getHours : N; getMinutes : N; getSeconds : N
}.

(** [n.toString()] and the conversion of a template literal, for a
    natural number: its decimal numeral. *)
Definition toString (n : N) : string := NilEmpty.string_of_uint (N.to_uint n).

(** [s.padStart(targetLength, pad)] for a one-character [pad]. *)
Definition padStart (targetLength : nat) (pad : ascii) (s : string) : string :=
  (string_of_list_ascii (repeat pad (targetLength - String.length s)) ++ s)%string.

Definition formattedTimestamp (t : LocalTime) : string :=
  (toString (getFullYear t) ++ "-"
   ++ padStart 2 "0" (toString (getMonth t + 1)) ++ "-"
   ++ padStart 2 "0" (toString (getDate t)) ++ " "
   ++ padStart 2 "0" (toString (getHours t)) ++ ":"
   ++ padStart 2 "0" (toString (getMinutes t)) ++ ":"
   ++ padStart 2 "0" (toString (getSeconds t)))%string.

(** The decimal digit of the units of [n], and the numeral of two digits
    made of them. *)
Definition digit (n : N) : ascii := ascii_of_N (48 + n mod 10).

Definition two_digits (n : N) : string :=
  String (digit (n / 10)) (String (digit n) EmptyString).

(** ** Induction on entries and their arrays together *)

Section entry_induction.
Variables (Q : entry -> Prop) (R : list entry -> Prop).
Hypothesis Qfile : ∀ n, Q (File n).
Hypothesis Qdir : ∀ n c, R c -> Q (Dir n c).
Hypothesis Rnil : R [].
Hypothesis Rcons : ∀ e l, Q e -> R l -> R (e :: l).

Fixpoint entry_both (e : entry) : Q e :=
  match e with
  | File n => Qfile n
  | Dir n c =>
      Qdir n c
        ((fix go (l : list entry) : R l :=
            match l with
            | [] => Rnil
            | x :: l' => Rcons x l' (entry_both x) (go l')
            end) c)
  end.
End entry_induction.

(** * Properties *)

(** ** Completions *)

Lemma bind_Normal {A B} (c : completion A) (f : A -> completion B) (b : B) :
  c ≫= f = Normal b -> ∃ a, c = Normal a ∧ f a = Normal b.
Proof. destruct c as [a|e]; simpl; [eauto | discriminate]. Qed.

Ltac bind_inv H :=
  let a := fresh "x" in
  let H1 := fresh H in
  apply bind_Normal in H; destruct H as (a & H1 & H).

Lemma forEach_app P (l1 l2 : list Item) (t : Tree) :
  forEach P (l1 ++ l2) t = forEach P l1 t ≫= forEach P l2.
Proof.
  revert t. induction l1 as [|it l1 IH]; intros t; simpl; [done|].
  destruct (add_item P t it) as [t'|e]; simpl; [apply IH | done].
Qed.

Lemma entries_both (Q : entry -> Prop) (R : list entry -> Prop) :
  (∀ n, Q (File n)) -> (∀ n c, R c -> Q (Dir n c)) ->
  R [] -> (∀ e l, Q e -> R l -> R (e :: l)) ->
  ∀ l, R l.
Proof.
  intros Qfile Qdir Rnil Rcons. induction l as [|e l IH]; [exact Rnil|].
  apply Rcons; [by apply (entry_both Q R) | exact IH].
Qed.

(** ** Growth *)

Lemma grows_refl (l : list entry) : grows l l.
Proof.
  apply (entries_both (fun e => ∀ l, grows l l -> grows (e :: l) (e :: l))
           (fun l => grows l l)).
  - intros n l0 H. by constructor.
  - intros n c Hc l0 H. by constructor.
  - constructor.
  - intros e l0 He Hl. by apply He.
Qed.

Lemma grows_trans (l1 l2 l3 : list entry) :
  grows l1 l2 -> grows l2 l3 -> grows l1 l3.
Proof.
  intros H. revert l3.
  induction H as [ext|n old new H IH|n c c' old new Hc IHc H IH]; intros l3 H23.
  - constructor.
  - inversion H23; subst. constructor. by apply IH.
  - inversion H23; subst. constructor; [by apply IHc | by apply IH].
Qed.

Lemma grows_app_r (l1 l2 ext : list entry) :
  grows l1 l2 -> grows l1 (l2 ++ ext).
Proof. induction 1; simpl; by constructor. Qed.

Lemma grows_push (l ext : list entry) : grows l (l ++ ext).
Proof. apply grows_app_r, grows_refl. Qed.

Lemma grows_insert (arr : list entry) (i : nat) k sub sub' :
  arr !! i = Some (Dir k sub) -> grows sub sub' ->
  grows arr (<[i := Dir k sub']> arr).
Proof.
  revert i. induction arr as [|e arr IH]; intros [|i] Hi Hs; simpl in *;
    try discriminate.
  - injection Hi as ->. constructor; [done | apply grows_refl].
  - destruct e; constructor; eauto using grows_refl.
Qed.

Lemma grows_keys (l1 l2 : list entry) :
  grows l1 l2 -> (key <$> l1) `prefix_of` (key <$> l2).
Proof.
  induction 1 as [ext|n old new H IH|n c c' old new Hc IHc H IH]; simpl.
  - apply prefix_nil.
  - by apply prefix_cons.
  - by apply prefix_cons.
Qed.

Lemma grows_lookup (l1 l2 : list entry) (i : nat) (e : entry) :
  grows l1 l2 -> l1 !! i = Some e ->
  ∃ e', l2 !! i = Some e' ∧ key e' = key e ∧
        ∀ k c, e = Dir k c -> ∃ c', e' = Dir k c' ∧ grows c c'.
Proof.
  intros H. revert i.
  induction H as [ext|n old new H IH|n c c' old new Hc IHc H IH];
    intros [|i] Hi; simpl in *; try discriminate; eauto.
  - injection Hi as <-. eexists; split_and!; [done..|]. intros; discriminate.
  - injection Hi as <-. eexists; split_and!; [done..|].
    intros k0 c0 [= <- <-]. eauto.
Qed.

(** The walk of one item only grows the array it starts from. *)
Lemma find_lookup part (arr : list entry) i e :
  list_find (fun e => has_member part e) arr = Some (i, e) -> arr !! i = Some e.
Proof. intros H. by apply list_find_Some in H as (? & _). Qed.

Lemma walk_grows (isd : bool) (parts : list string) :
  ∀ arr arr', walk isd parts arr = Normal arr' -> grows arr arr'.
Proof.
  induction parts as [|part rest IH]; intros arr arr' H; simpl in H.
  - injection H as <-. apply grows_refl.
  - destruct (negb _ || isd).
    + destruct (list_find _ arr) as [[i [f|k sub]]|] eqn:Hfind; [done| |].
      * destruct rest as [|p2 rest].
        { injection H as <-. apply grows_refl. }
        destruct (decide (k = part)) as [->|]; [|done].
        bind_inv H. injection H as <-.
        eapply grows_insert; [by eapply find_lookup | by apply IH].
      * destruct rest as [|p2 rest].
        { injection H as <-. apply grows_push. }
        bind_inv H. injection H as <-. apply grows_push.
    + destruct (find _ arr) as [[found|]|];
        [destruct (truthy found)|..]; injection H as <-;
        auto using grows_refl, grows_push.
Qed.

(** ** The root object *)

Lemma own_store_eq (t : Tree) host v w :
  own_property t host = Some w -> own_property (store host v t) host = Some v.
Proof.
  induction t as [|[k u] t IH]; simpl; [done|].
  destruct (decide (k = host)) as [->|Hne]; simpl.
  - by rewrite decide_True.
  - rewrite decide_False by done. apply IH.
Qed.

Lemma own_store_ne (t : Tree) host h v :
  h ≠ host -> own_property (store host v t) h = own_property t h.
Proof.
  intros Hne. induction t as [|[k u] t IH]; simpl; [done|].
  destruct (decide (k = host)) as [->|Hk]; simpl.
  - by rewrite !decide_False.
  - destruct (decide (k = h)); [done | apply IH].
Qed.

Lemma store_keys (t : Tree) host v : (store host v t).*1 = t.*1.
Proof.
  induction t as [|[k u] t IH]; simpl; [done|].
  destruct (decide (k = host)); simpl; [done | f_equal; apply IH].
Qed.

Lemma store_same (t : Tree) host v :
  own_property t host = Some v -> store host v t = t.
Proof.
  induction t as [|[k u] t IH]; simpl; [done|].
  destruct (decide (k = host)); [by intros [= ->] | intros H; by rewrite IH].
Qed.

Lemma own_define_index_eq n (t : Tree) host v :
  own_property t host = None ->
  own_property (define_index n host v t) host = Some v.
Proof.
  induction t as [|[k u] t IH]; simpl.
  - intros _. by rewrite decide_True.
  - destruct (decide (k = host)) as [|Hne]; [done|]. intros Hnone.
    destruct (array_index k) as [m|]; [destruct (m <? n)%N|]; simpl;
      rewrite ?decide_True by done; try done.
    rewrite decide_False by done. by apply IH.
Qed.

Lemma own_define_index_ne n (t : Tree) host h v :
  h ≠ host -> own_property (define_index n host v t) h = own_property t h.
Proof.
  intros Hne. induction t as [|[k u] t IH]; simpl.
  - by rewrite decide_False.
  - destruct (array_index k) as [m|]; [destruct (m <? n)%N|]; simpl;
      rewrite ?(decide_False (P := host = h)) by done; try done.
    destruct (decide (k = h)); [done | apply IH].
Qed.

Lemma own_app_singleton (t : Tree) host h v :
  own_property (t ++ [(host, v)]) h =
  match own_property t h with
  | Some a => Some a
  | None => if decide (host = h) then Some v else None
  end.
Proof.
  induction t as [|[k u] t IH]; simpl; [done|].
  destruct (decide (k = h)); [done | apply IH].
Qed.

Lemma own_define_eq (t : Tree) host v :
  own_property t host = None ->
  own_property (define_property host v t) host = Some v.
Proof.
  intros H. unfold define_property. destruct (array_index host).
  - by apply own_define_index_eq.
  - rewrite own_app_singleton, H. by rewrite decide_True.
Qed.

Lemma own_define_ne (t : Tree) host h v :
  h ≠ host -> own_property (define_property host v t) h = own_property t h.
Proof.
  intros Hne. unfold define_property. destruct (array_index host).
  - by apply own_define_index_ne.
  - rewrite own_app_singleton. rewrite decide_False by done.
    by destruct (own_property t h).
Qed.

Lemma define_keys (t : Tree) host v :
  sublist (t.*1) ((define_property host v t).*1).
Proof.
  unfold define_property. destruct (array_index host) as [n|].
  - induction t as [|[k u] t IH]; simpl; [apply sublist_nil_l|].
    destruct (array_index k) as [m|]; [destruct (m <? n)%N|]; simpl.
    + by apply sublist_skip.
    + by apply sublist_cons.
    + by apply sublist_cons.
  - rewrite fmap_app. by apply sublist_inserts_r.
Qed.

Lemma define_length (t : Tree) host v :
  List.length (define_property host v t) = S (List.length t).
Proof.
  unfold define_property. destruct (array_index host) as [n|].
  - induction t as [|[k u] t IH]; simpl; [done|].
    destruct (array_index k) as [m|]; [destruct (m <? n)%N|]; simpl; by rewrite ?IH.
  - rewrite length_app. simpl. lia.
Qed.

Lemma grows_root_refl (t : Tree) : grows_root t t.
Proof. split; [done | eauto using grows_refl]. Qed.

Lemma grows_root_trans (t1 t2 t3 : Tree) :
  grows_root t1 t2 -> grows_root t2 t3 -> grows_root t1 t3.
Proof.
  intros [Hk12 H12] [Hk23 H23]. split; [by etrans|].
  intros host arr Ha.
  destruct (H12 _ _ Ha) as (a2 & Ha2 & Hg12).
  destruct (H23 _ _ Ha2) as (a3 & Ha3 & Hg23).
  eauto using grows_trans.
Qed.

Lemma grows_root_store (t : Tree) host arr arr' :
  own_property t host = Some arr -> grows arr arr' ->
  grows_root t (store host arr' t).
Proof.
  intros Hown Hg. split; [by rewrite store_keys|].
  intros h a Ha. destruct (decide (h = host)) as [->|Hne].
  - rewrite (own_store_eq _ _ _ _ Hown). simplify_eq. eauto.
  - rewrite own_store_ne by done. eauto using grows_refl.
Qed.

Lemma grows_root_define (t : Tree) host arr :
  own_property t host = None -> grows_root t (define_property host arr t).
Proof.
  intros Hown. split; [apply define_keys|].
  intros h a Ha. rewrite own_define_ne by congruence. eauto using grows_refl.
Qed.

Lemma insert_parts_grows (isd : bool) (parts : list string) (t t' : Tree) :
  insert_parts isd parts t = Normal t' -> grows_root t t'.
Proof.
  destruct parts as [|host rest]; simpl.
  { intros [= <-]. apply grows_root_refl. }
  destruct (own_property t host) as [arr|] eqn:Hown.
  - intros H. bind_inv H. injection H as <-.
    eauto using grows_root_store, walk_grows.
  - destruct (inherited host).
    + destruct rest; [intros [= <-]; apply grows_root_refl | done].
    + intros H. bind_inv H. injection H as <-. by apply grows_root_define.
Qed.

Lemma add_item_grows P (t t' : Tree) (it : Item) :
  add_item P t it = Normal t' -> grows_root t t'.
Proof. unfold add_item. intros H. bind_inv H. eauto using insert_parts_grows. Qed.

Lemma forEach_grows P (items : list Item) :
  ∀ t t', forEach P items t = Normal t' -> grows_root t t'.
Proof.
  induction items as [|it items IH]; simpl; intros t t' H.
  - injection H as <-. apply grows_root_refl.
  - bind_inv H. eauto using grows_root_trans, add_item_grows.
Qed.

(** C10.  Every item only appends: the tree built from any prefix of the
    items is embedded, entry by entry and in the same order, in the tree
    built from the whole list. *)
Theorem prefix_tree_embedded (P : Platform) (first later : list Item) (t : Tree) :
  transformToTree P (first ++ later) = Normal t ->
  ∃ t0, transformToTree P first = Normal t0 ∧ grows_root t0 t.
Proof.
  unfold transformToTree. rewrite forEach_app. intros H.
  apply bind_Normal in H as (t0 & H0 & H). eauto using forEach_grows.
Qed.

Lemma prefix_tree_embedded_witness :
  ∃ t0,
    transformToTree node [item "https://ex.com/docs/readme.txt"] = Normal t0 ∧
    grows_root t0
      [("ex.com", [Dir "docs" [File "readme.txt"]; File "img.png"])].
Proof.
  apply (prefix_tree_embedded node
           [item "https://ex.com/docs/readme.txt"]
           [item "https://ex.com/docs/"; item "https://ex.com/img.png"]).
  vm_compute. reflexivity.
Defined.

(** ** Names under a directory, along the run *)

Lemma find_dir_grows (d : string) (arr arr' : list entry) k c :
  grows arr arr' -> find (is_dir_named d) arr = Some (Dir k c) ->
  ∃ c', find (is_dir_named d) arr' = Some (Dir k c') ∧ grows c c'.
Proof.
  induction 1 as [ext|n old new H IH|n c0 c0' old new Hc IHc H IH]; simpl.
  - done.
  - apply IH.
  - destruct (bool_decide (n = d)); [intros [= <- <-]; eauto | apply IH].
Qed.

Lemma children_at_grows (path : list string) :
  ∀ arr arr' l, grows arr arr' -> children_at path arr = Some l ->
    ∃ l', children_at path arr' = Some l' ∧ grows l l'.
Proof.
  induction path as [|d path IH]; simpl; intros arr arr' l Hg Hl.
  - injection Hl as <-. eauto.
  - destruct (find (is_dir_named d) arr) as [[n|k c]|] eqn:Hf; try done.
    destruct (find_dir_grows _ _ _ _ _ Hg Hf) as (c' & -> & Hc). eauto.
Qed.

Lemma siblings_prefix (t t' : Tree) host path :
  grows_root t t' -> siblings t host path `prefix_of` siblings t' host path.
Proof.
  intros [_ Hg]. unfold siblings.
  destruct (own_property t host) as [arr|] eqn:Hown; [|apply prefix_nil].
  destruct (Hg _ _ Hown) as (arr' & -> & Harr).
  destruct (children_at path arr) as [l|] eqn:Hl; [|apply prefix_nil].
  destruct (children_at_grows _ _ _ _ Harr Hl) as (l' & -> & Hgl).
  by apply grows_keys.
Qed.

Lemma forEach_prefix P (first later : list Item) (t : Tree) :
  forEach P (first ++ later) [] = Normal t ->
  ∃ t0, forEach P first [] = Normal t0 ∧ grows_root t0 t.
Proof.
  rewrite forEach_app. intros H.
  apply bind_Normal in H as (t0 & H0 & H). eauto using forEach_grows.
Qed.

Lemma tree_after_grows P (items : list Item) (t : Tree) (k k' : nat) :
  transformToTree P items = Normal t -> k <= k' ->
  grows_root (tree_after P items k) (tree_after P items k') ∧
  grows_root (tree_after P items k') t.
Proof.
  intros Ht Hk.
  assert (Hk' : ∃ tk', transformToTree P (take k' items) = Normal tk' ∧
                       grows_root tk' t).
  { apply forEach_prefix with (later := drop k' items).
    by rewrite take_drop. }
  destruct Hk' as (tk' & Hk' & Hg'). unfold tree_after at 2 3. rewrite Hk'.
  split; [|done].
  assert (Hkk : ∃ tk, transformToTree P (take k (take k' items)) = Normal tk ∧
                      grows_root tk tk').
  { apply forEach_prefix with (later := drop k (take k' items)).
    by rewrite take_drop. }
  destruct Hkk as (tk & Hkk & Hg). rewrite take_take in Hkk.
  replace (k `min` k') with k in Hkk by lia.
  unfold tree_after. by rewrite Hkk.
Qed.

(** C5.  Two names under one directory stand in the order in which the
    items that brought them come in the input. *)
Theorem first_seen_order (P : Platform) (items : list Item) (t : Tree)
    (host : string) (path : list string) (i j : nat) (e1 e2 : bool * string) :
  transformToTree P items = Normal t ->
  i < j ->
  introduces P items i host path e1 ->
  introduces P items j host path e2 ->
  precedes e1 e2 (siblings t host path).
Proof.
  intros Ht Hij [_ Hin1] [Hout2 Hin2].
  destruct (tree_after_grows P items t (S i) j Ht) as [Hij' _]; [lia|].
  destruct (tree_after_grows P items t j (S j) Ht) as [Hjj Hjt]; [lia|].
  apply (siblings_prefix _ _ host path) in Hij' as [a Ha], Hjj as [b Hb],
    Hjt as [c Hc].
  assert (He1 : e1 ∈ siblings (tree_after P items j) host path).
  { rewrite Ha. apply elem_of_app. by left. }
  rewrite Hb in Hin2. apply elem_of_app in Hin2 as [?|He2]; [done|].
  apply list_elem_of_split in He1 as (l1 & l2 & Hl).
  apply list_elem_of_split in He2 as (b1 & b2 & ->).
  exists l1, (l2 ++ b1), (b2 ++ c).
  rewrite Hc, Hb, Hl. by rewrite <- !app_assoc.
Qed.

Lemma first_seen_order_witness :
  precedes (true, "docs") (false, "img.png")
    (siblings [("ex.com", [Dir "docs" [File "readme.txt"]; File "img.png"])]
       "ex.com" []).
Proof.
  apply (first_seen_order node
           [item "https://ex.com/docs/readme.txt"; item "https://ex.com/docs/";
            item "https://ex.com/img.png"] _ "ex.com" [] 0 2).
  - vm_compute. reflexivity.
  - lia.
  - split; vm_compute; [inversion 1 | by left].
  - split; vm_compute.
    + intros H. apply list_elem_of_In in H. simpl in H. intuition discriminate.
    + right. left.
Defined.

(** ** One name per kind *)

Lemma elem_of_insert_inv {A} (l : list A) (i : nat) (x y : A) :
  x ∈ <[i := y]> l -> x = y ∨ x ∈ l.
Proof.
  revert i. induction l as [|a l IH]; intros [|i]; simpl; try by auto.
  - intros [->|?]%elem_of_cons; [by left | right; by right].
  - intros [->|H]%elem_of_cons; [right; by left|].
    destruct (IH _ H); [by left | right; by right].
Qed.

Lemma no_member_no_dir (part : string) (arr : list entry) :
  list_find (fun e => has_member part e) arr = None ->
  (true, part) ∉ key <$> arr.
Proof.
  intros Hnone [e [He Hin]]%list_elem_of_fmap.
  apply list_find_None in Hnone. rewrite Forall_forall in Hnone.
  apply (Hnone e Hin). destruct e as [n|k c]; simpl in *; [done|].
  injection He as ->. rewrite bool_decide_eq_true_2 by done. done.
Qed.

Lemma find_file_None (part : string) (arr : list entry) :
  find (is_file part) arr = None -> (false, part) ∉ key <$> arr.
Proof.
  intros Hnone [e [He Hin]]%list_elem_of_fmap.
  apply list_elem_of_In in Hin.
  pose proof (find_none _ _ Hnone e Hin) as Hf.
  destruct e as [n|k c]; simpl in *; [|done].
  injection He as ->. by rewrite bool_decide_eq_true_2 in Hf.
Qed.

Lemma find_file_Some (part : string) (arr : list entry) e :
  find (is_file part) arr = Some e -> e = File part ∧ e ∈ arr.
Proof.
  intros [Hin Hf]%find_some. apply list_elem_of_In in Hin. split; [|done].
  destruct e as [n|k c]; simpl in Hf; [|done].
  by apply bool_decide_eq_true_1 in Hf as ->.
Qed.

Lemma Uniq_nil : Uniq [].
Proof. constructor; [constructor | intros k c H; inversion H]. Qed.

Lemma Uniq_push (arr : list entry) (e : entry) :
  Uniq arr -> key e ∉ key <$> arr ->
  (∀ k c, e = Dir k c -> Uniq c) -> Uniq (arr ++ [e]).
Proof.
  intros [? Hnd Hsub] Hfresh He. constructor.
  - rewrite fmap_app. apply NoDup_app. split_and!; [done| |].
    + intros x Hx [->|H]%elem_of_cons; [done | inversion H].
    + apply NoDup_singleton.
  - intros k c [H|H]%elem_of_app; [eauto|].
    apply list_elem_of_singleton in H. eauto.
Qed.

Lemma Uniq_insert (arr : list entry) (i : nat) k sub sub' :
  Uniq arr -> arr !! i = Some (Dir k sub) -> Uniq sub' ->
  Uniq (<[i := Dir k sub']> arr).
Proof.
  intros [? Hnd Hsub] Hi Hs. constructor.
  - rewrite list_fmap_insert. rewrite list_insert_id; [done|].
    by rewrite list_lookup_fmap, Hi.
  - intros k0 c0 [[= -> ->]|H]%elem_of_insert_inv; eauto.
Qed.

Lemma walk_uniq (isd : bool) (parts : list string) :
  Forall (fun part => truthy part = true) parts ->
  ∀ arr arr', Uniq arr -> walk isd parts arr = Normal arr' -> Uniq arr'.
Proof.
  induction 1 as [|part rest Hpart Hrest IH]; intros arr arr' Hu H; simpl in H.
  { by injection H as <-. }
  destruct (negb _ || isd).
  - destruct (list_find _ arr) as [[i [f|k sub]]|] eqn:Hfind; [done| |].
    + destruct rest as [|p2 rest]; [by injection H as <-|].
      destruct (decide (k = part)) as [->|]; [|done].
      bind_inv H. injection H as <-.
      pose proof (find_lookup _ _ _ _ Hfind) as Hi.
      eapply Uniq_insert; [done..|].
      eapply IH; [|done]. destruct Hu as [? _ Hsub].
      eapply Hsub, list_elem_of_lookup_2, Hi.
    + apply no_member_no_dir in Hfind.
      destruct rest as [|p2 rest].
      * injection H as <-. apply Uniq_push; [done..|].
        intros k c [= _ <-]. apply Uniq_nil.
      * bind_inv H. injection H as <-. apply Uniq_push; [done..|].
        intros k c [= _ <-]. eapply IH; [apply Uniq_nil | done].
  - destruct (find _ arr) as [[found|k c]|] eqn:Hfind.
    + apply find_file_Some in Hfind as [[= ->] _].
      rewrite Hpart in H. by injection H as <-.
    + by apply find_file_Some in Hfind as [? _].
    + injection H as <-. apply find_file_None in Hfind.
      apply Uniq_push; [done..|]. intros; discriminate.
Qed.

Lemma Uniq_sequence (arr l : list entry) :
  sequence_in l arr -> Uniq arr -> NoDup (key <$> l).
Proof.
  induction 1 as [arr|arr k c l Hin Hl IH]; inversion 1 as [? Hnd Hsub]; subst.
  - exact Hnd.
  - apply IH. by apply (Hsub k).
Qed.

Lemma own_property_None (t : Tree) host :
  own_property t host = None -> host ∉ t.*1.
Proof.
  induction t as [|[k u] t IH]; simpl; [intros _ H; inversion H|].
  destruct (decide (k = host)); [done|]. intros H [->|?]%elem_of_cons; [done|].
  by apply IH.
Qed.

Lemma own_property_Some (t : Tree) host arr :
  own_property t host = Some arr -> (host, arr) ∈ t.
Proof.
  induction t as [|[k u] t IH]; simpl; [done|].
  destruct (decide (k = host)) as [->|]; [intros [= ->]; by left|].
  intros H. right. by apply IH.
Qed.

Lemma store_elem (t : Tree) host v h arr :
  (h, arr) ∈ store host v t -> (h = host ∧ arr = v) ∨ (h, arr) ∈ t.
Proof.
  induction t as [|[k u] t IH]; simpl; [by right|].
  destruct (decide (k = host)) as [->|].
  - intros [[= -> ->]|H]%elem_of_cons; [by left | right; by right].
  - intros [[= -> ->]|H]%elem_of_cons; [right; by left|].
    destruct (IH H); [by left | right; by right].
Qed.

Lemma define_perm (t : Tree) host v :
  define_property host v t ≡ₚ (host, v) :: t.
Proof.
  unfold define_property. destruct (array_index host) as [n|].
  - induction t as [|[k u] t IH]; simpl; [done|].
    destruct (array_index k) as [m|]; [destruct (m <? n)%N|]; try done.
    rewrite IH. apply Permutation_swap.
  - symmetry. apply Permutation_cons_append.
Qed.

Lemma Sound_store (t : Tree) host v :
  Sound t -> Uniq v -> Sound (store host v t).
Proof.
  intros [Hnd Hu] Hv. split; [by rewrite store_keys|].
  intros h arr [[-> ->]|H]%store_elem; eauto.
Qed.

Lemma Sound_define (t : Tree) host v :
  Sound t -> own_property t host = None -> Uniq v ->
  Sound (define_property host v t).
Proof.
  intros [Hnd Hu] Hown Hv. split.
  - rewrite define_perm. simpl. apply NoDup_cons.
    split; [by apply own_property_None | done].
  - intros h arr H. rewrite define_perm in H.
    apply elem_of_cons in H as [[= -> ->]|H]; eauto.
Qed.

Lemma insert_parts_sound (isd : bool) (host : string) (rest : list string)
    (t t' : Tree) :
  Forall (fun part => truthy part = true) rest -> Sound t ->
  insert_parts isd (host :: rest) t = Normal t' -> Sound t'.
Proof.
  intros Hrest Hs. simpl.
  destruct (own_property t host) as [arr|] eqn:Hown.
  - intros H. bind_inv H. injection H as <-. apply Sound_store; [done|].
    eapply walk_uniq; [done| |done]. destruct Hs as [_ Hu].
    eauto using own_property_Some.
  - destruct (inherited host).
    + destruct rest; [by intros [= <-] | done].
    + intros H. bind_inv H. injection H as <-.
      apply Sound_define; [done..|]. eauto using walk_uniq, Uniq_nil.
Qed.

(** The parts of an item: a host name, then non-empty segments. *)
Lemma map_throwing_truthy P (segs out : list string) :
  decodes_nonempty P ->
  Forall (fun s => truthy s = true) segs ->
  map_throwing (decodeURIComponent P) segs = Normal out ->
  Forall (fun s => truthy s = true) out.
Proof.
  intros Hdec H. revert out.
  induction H as [|s segs Hs Hsegs IH]; simpl; intros out Hout.
  - injection Hout as <-. constructor.
  - bind_inv Hout. bind_inv Hout. injection Hout as <-. constructor; eauto.
Qed.

Lemma decompose_parts P (it : Item) (isd : bool) (parts : list string) :
  decodes_nonempty P ->
  decompose P it = Normal (isd, parts) ->
  isd = endsWith (fileUrl it) "/" ∧
  ∃ host rest, parts = host :: rest ∧ Forall (fun s => truthy s = true) rest.
Proof.
  intros Hdec H. unfold decompose in H.
  bind_inv H. bind_inv H. bind_inv H. injection H as <- <-.
  split; [done|]. eexists _, _. split; [done|].
  eapply map_throwing_truthy; [done| |done].
  apply Forall_forall. intros s Hs.
  apply list_elem_of_filter in Hs as [Hs _]. by apply Is_true_true.
Qed.

Lemma forEach_sound P (items : list Item) :
  decodes_nonempty P ->
  ∀ t t', Sound t -> forEach P items t = Normal t' -> Sound t'.
Proof.
  intros Hdec. induction items as [|it items IH]; simpl; intros t t' Hs H.
  - by injection H as <-.
  - bind_inv H. eapply IH; [|exact H]. clear H IH.
    unfold add_item in H0. bind_inv H0. destruct x0 as [isd parts].
    apply decompose_parts in H1 as (_ & host & rest & -> & Hrest); [|done].
    eauto using insert_parts_sound.
Qed.

(** C6, as the code has it.  In every array of the tree at most one file
    and at most one subdirectory bear a given name; the keys of the root
    are distinct too. *)
Theorem one_name_per_kind (P : Platform) (items : list Item) (t : Tree) :
  decodes_nonempty P ->
  transformToTree P items = Normal t ->
  NoDup (t.*1) ∧
  ∀ host arr l, (host, arr) ∈ t -> sequence_in l arr -> NoDup (key <$> l).
Proof.
  intros Hdec Ht.
  assert (Hs : Sound t).
  { eapply forEach_sound; [done| |exact Ht]. split; [constructor|].
    intros h a H. inversion H. }
  destruct Hs as [Hnd Hu]. split; [done|].
  intros host arr l Hin Hl. eauto using Uniq_sequence.
Qed.

(** The model of [decodeURIComponent] does decode non-empty strings to
    non-empty strings. *)
Lemma node_decodes_nonempty : decodes_nonempty node.
Proof.
  intros s r H Hs. destruct s as [|c s]; [discriminate|]. clear Hs.
  simpl in H. unfold decodeURIComponent in H; simpl in H.
  repeat case_match; try discriminate;
    try (apply bind_Normal in H as (? & _ & H)); by injection H as <-.
Qed.

Lemma one_name_per_kind_witness :
  NoDup ([("h", [File "foo"; Dir "foo" []])].*1) ∧
  ∀ host arr l, (host, arr) ∈ [("h", [File "foo"; Dir "foo" []])] ->
    sequence_in l arr -> NoDup (key <$> l).
Proof.
  apply (one_name_per_kind node [item "https://h/foo"; item "https://h/foo/"]).
  - exact node_decodes_nonempty.
  - vm_compute. reflexivity.
Defined.

(** C6, as the specification words it, fails: a file and a subdirectory of
    one name are both kept, in the order of their items. *)
Lemma file_and_directory_share_a_name :
  transformToTree node [item "https://h/foo"; item "https://h/foo/"]
    = Normal [("h", [File "foo"; Dir "foo" []])] ∧
  ¬ NoDup (name_of <$> [File "foo"; Dir "foo" []]).
Proof.
  split; [vm_compute; reflexivity|].
  intros H. apply NoDup_cons in H as [H _]. apply H. by left.
Qed.

(** ** An item seen before changes nothing *)

Lemma find_member_insert part (arr : list entry) i k sub sub' :
  list_find (fun e => has_member part e) arr = Some (i, Dir k sub) ->
  list_find (fun e => has_member part e) (<[i := Dir k sub']> arr)
    = Some (i, Dir k sub').
Proof.
  intros (Hi & Hp & Hleast)%list_find_Some. apply list_find_Some.
  split_and!.
  - apply list_lookup_insert_eq. by eapply lookup_lt_Some.
  - done.
  - intros j y Hj Hlt. rewrite list_lookup_insert_ne in Hj by lia. eauto.
Qed.

Lemma find_member_push part (arr : list entry) (e : entry) :
  list_find (fun e => has_member part e) arr = None ->
  has_member part e = true ->
  list_find (fun e => has_member part e) (arr ++ [e])
    = Some (List.length arr, e).
Proof.
  intros Hnone He. rewrite list_find_app_r by done. simpl.
  rewrite decide_True by by rewrite He. done.
Qed.

Lemma has_member_own part c : has_member part (Dir part c) = true.
Proof. simpl. by rewrite bool_decide_eq_true_2. Qed.

Lemma find_file_push part (arr : list entry) :
  find (is_file part) arr = None ->
  find (is_file part) (arr ++ [File part]) = Some (File part).
Proof.
  induction arr as [|e arr IH]; simpl.
  - by rewrite bool_decide_eq_true_2.
  - destruct (is_file part e); [done | apply IH].
Qed.

Lemma walk_idem (isd : bool) (parts : list string) :
  Forall (fun part => truthy part = true) parts ->
  ∀ arr arr', walk isd parts arr = Normal arr' ->
    walk isd parts arr' = Normal arr'.
Proof.
  induction 1 as [|part rest Hpart Hrest IH]; intros arr arr' H; [done|].
  simpl in H |- *. destruct (negb _ || isd).
  - destruct (list_find _ arr) as [[i [f|k sub]]|] eqn:Hfind; [done| |].
    + destruct rest as [|p2 rest].
      { injection H as <-. by rewrite Hfind. }
      destruct (decide (k = part)) as [->|]; [|done].
      bind_inv H. injection H as <-.
      rewrite (find_member_insert _ _ _ _ _ x Hfind).
      rewrite decide_True by done. rewrite (IH _ _ H0). simpl.
      by rewrite list_insert_insert_eq.
    + destruct rest as [|p2 rest].
      { injection H as <-.
        by rewrite (find_member_push _ _ _ Hfind (has_member_own _ _)). }
      bind_inv H. injection H as <-.
      rewrite (find_member_push _ _ _ Hfind (has_member_own _ _)).
      rewrite decide_True by done. rewrite (IH _ _ H0). simpl.
      replace (List.length arr) with (List.length arr + 0) by lia.
      by rewrite insert_app_r.
  - destruct (find _ arr) as [[found|k c]|] eqn:Hfind.
    + pose proof Hfind as [[= ->] _]%find_file_Some.
      rewrite Hpart in H. injection H as <-. by rewrite Hfind, Hpart.
    + by apply find_file_Some in Hfind as [? _].
    + injection H as <-. by rewrite find_file_push, Hpart.
Qed.

Lemma push_neq {A} (l : list A) (x : A) : l ++ [x] ≠ l.
Proof.
  intros H. apply (f_equal List.length) in H. rewrite length_app in H.
  simpl in H. lia.
Qed.

Lemma find_member_grows part (arr arr' : list entry) i e :
  grows arr arr' ->
  list_find (fun e => has_member part e) arr = Some (i, e) ->
  ∃ e', list_find (fun e => has_member part e) arr' = Some (i, e') ∧
        ∀ k c, e = Dir k c -> ∃ c', e' = Dir k c' ∧ grows c c'.
Proof.
  intros H. revert i.
  induction H as [ext|n old new H IH|n c c' old new Hc IHc H IH];
    intros i Hfind; simpl in *; [done| |].
  - destruct (list_find _ old) as [[j y]|] eqn:Hold; [|done].
    injection Hfind as <- <-. destruct (IH _ eq_refl) as (e' & -> & He').
    eauto.
  - destruct (decide _) as [Hp|Hp].
    + injection Hfind as <- <-. eexists. split; [done|].
      intros k0 c0 [= <- <-]. eauto.
    + destruct (list_find _ old) as [[j y]|] eqn:Hold; [|done].
      injection Hfind as <- <-. destruct (IH _ eq_refl) as (e' & -> & He').
      eauto.
Qed.

Lemma find_file_grows part (arr arr' : list entry) e :
  grows arr arr' -> find (is_file part) arr = Some e ->
  find (is_file part) arr' = Some e.
Proof.
  induction 1 as [ext|n old new H IH|n c c' old new Hc IHc H IH]; simpl;
    [done| |apply IH].
  destruct (bool_decide (n = part)); [done | apply IH].
Qed.

(** An item that changes nothing now changes nothing later either. *)
Lemma walk_absorbed (isd : bool) (parts : list string) :
  ∀ arr arr', walk isd parts arr = Normal arr -> grows arr arr' ->
    walk isd parts arr' = Normal arr'.
Proof.
  induction parts as [|part rest IH]; intros arr arr' H Hg; [done|].
  simpl in H |- *. destruct (negb _ || isd).
  - destruct (list_find _ arr) as [[i [f|k sub]]|] eqn:Hfind; [done| |].
    + destruct (find_member_grows _ _ _ _ _ Hg Hfind) as (e' & Hfind' & He').
      destruct (He' _ _ eq_refl) as (sub' & -> & Hsub). rewrite Hfind'.
      destruct rest as [|p2 rest]; [done|].
      destruct (decide (k = part)) as [->|]; [|done].
      bind_inv H. injection H as H.
      assert (x = sub) as ->.
      { pose proof (find_lookup _ _ _ _ Hfind) as Hi.
        pose proof (lookup_lt_Some _ _ _ Hi) as Hlt.
        rewrite <- H in Hi at 1.
        rewrite list_lookup_insert_eq in Hi by done.
        by injection Hi. }
      rewrite (IH _ _ H0 Hsub). simpl. f_equal. apply list_insert_id.
      exact (find_lookup _ _ _ _ Hfind').
    + destruct rest as [|p2 rest].
      * injection H as H. by apply push_neq in H.
      * bind_inv H. injection H as H. by apply push_neq in H.
  - destruct (find _ arr) as [[found|k c]|] eqn:Hfind.
    + rewrite (find_file_grows _ _ _ _ Hg Hfind).
      destruct (truthy found); [done|]. injection H as H.
      by apply push_neq in H.
    + by apply find_file_Some in Hfind as [? _].
    + injection H as H. by apply push_neq in H.
Qed.

Lemma insert_parts_idem (isd : bool) (host : string) (rest : list string)
    (t t' : Tree) :
  Forall (fun part => truthy part = true) rest ->
  insert_parts isd (host :: rest) t = Normal t' ->
  insert_parts isd (host :: rest) t' = Normal t'.
Proof.
  intros Hrest H. simpl in H.
  assert (Hdone : ∀ arr', own_property t' host = Some arr' ->
            walk isd rest arr' = Normal arr' ->
            insert_parts isd (host :: rest) t' = Normal t').
  { intros arr' Hown Hw. simpl. rewrite Hown, Hw. simpl.
    by rewrite store_same. }
  destruct (own_property t host) as [arr|] eqn:Hown.
  - bind_inv H. injection H as <-.
    eauto using own_store_eq, walk_idem.
  - destruct (inherited host) eqn:Hinh.
    + destruct rest; [|done]. injection H as <-. simpl. by rewrite Hown, Hinh.
    + bind_inv H. injection H as <-.
      eauto using own_define_eq, walk_idem.
Qed.

Lemma insert_parts_absorbed (isd : bool) (parts : list string) (t t' : Tree) :
  insert_parts isd parts t = Normal t -> grows_root t t' ->
  insert_parts isd parts t' = Normal t'.
Proof.
  destruct parts as [|host rest]; [done|]. simpl. intros H [_ Hg].
  destruct (own_property t host) as [arr|] eqn:Hown.
  - bind_inv H. injection H as H.
    assert (x = arr) as ->.
    { pose proof (own_store_eq _ _ x _ Hown) as Hx. rewrite H in Hx. congruence. }
    destruct (Hg _ _ Hown) as (arr' & Hown' & Harr). rewrite Hown'.
    rewrite (walk_absorbed _ _ _ _ H0 Harr). simpl. by rewrite store_same.
  - destruct (inherited host).
    + destruct rest; [|done].
      destruct (own_property t' host) eqn:Hown'; [|done].
      simpl. by rewrite store_same.
    + bind_inv H. injection H as H. apply (f_equal List.length) in H.
      rewrite define_length in H. lia.
Qed.

Section Absorption.
Variable P : Platform.
Hypothesis decode_nonempty : decodes_nonempty P.

Lemma add_item_idem (t t' : Tree) (u : Item) :
  add_item P t u = Normal t' -> add_item P t' u = Normal t'.
Proof.
  unfold add_item. intros H. bind_inv H. rewrite H0. simpl.
  destruct x as [isd parts].
  apply decompose_parts in H0 as (_ & host & rest & -> & Hrest); [|done].
  eauto using insert_parts_idem.
Qed.

Lemma add_item_absorbed (t t' : Tree) (u : Item) :
  add_item P t u = Normal t -> grows_root t t' -> add_item P t' u = Normal t'.
Proof.
  unfold add_item. intros H Hg. bind_inv H. rewrite H0. simpl.
  eauto using insert_parts_absorbed.
Qed.

Lemma seen_before (u : Item) (between : list Item) (t0 t1 t2 : Tree) :
  add_item P t0 u = Normal t1 -> forEach P between t1 = Normal t2 ->
  add_item P t2 u = Normal t2.
Proof.
  intros H1 H2. eapply add_item_absorbed.
  - eapply add_item_idem, H1.
  - eapply forEach_grows, H2.
Qed.
End Absorption.

(** C2.  A URL that already came earlier in the list can be dropped: the
    result, tree or error, is the same. *)
Theorem duplicate_url_absorbed (P : Platform) (u : Item)
    (before between after : list Item) :
  decodes_nonempty P ->
  transformToTree P (before ++ u :: between ++ u :: after) =
  transformToTree P (before ++ u :: between ++ after).
Proof.
  intros Hdec. unfold transformToTree. rewrite !forEach_app.
  destruct (forEach P before []) as [t0|e]; simpl; [|done].
  destruct (add_item P t0 u) as [t1|e] eqn:H1; simpl; [|done].
  rewrite !forEach_app.
  destruct (forEach P between t1) as [t2|e] eqn:H2; simpl; [|done].
  by rewrite (seen_before P Hdec u between t0 t1 t2 H1 H2).
Qed.

Lemma duplicate_url_absorbed_witness :
  transformToTree node
    ([item "https://ex.com/docs/readme.txt"] ++ item "https://ex.com/docs/"
       :: [item "https://ex.com/img.png"] ++ item "https://ex.com/docs/"
       :: [item "https://ex.com/docs/notes.txt"]) =
  transformToTree node
    ([item "https://ex.com/docs/readme.txt"] ++ item "https://ex.com/docs/"
       :: [item "https://ex.com/img.png"]
       ++ [item "https://ex.com/docs/notes.txt"]).
Proof.
  apply (duplicate_url_absorbed node (item "https://ex.com/docs/")
           [item "https://ex.com/docs/readme.txt"]
           [item "https://ex.com/img.png"]
           [item "https://ex.com/docs/notes.txt"]).
  exact node_decodes_nonempty.
Defined.

(** ** The examples of the specification, on [node] *)

(** C1.  The end-to-end example: [docs] comes before [img.png] under
    [ex.com], and the second item, the directory [docs] itself, adds
    nothing. *)
Theorem end_to_end_example :
  transformToTree node
    [item "https://ex.com/docs/readme.txt"; item "https://ex.com/docs/";
     item "https://ex.com/img.png"]
  = Normal [("ex.com", [Dir "docs" [File "readme.txt"]; File "img.png"])].
Proof. vm_compute. reflexivity. Qed.

(** C3.  Without a final slash the last segment is a file, with one it is
    an empty directory; the flag is read off the raw [fileUrl], whatever
    the platform makes of the URL, so a query alone can set or clear it. *)
Theorem trailing_slash_decides :
  transformToTree node [item "https://h/a/b"]
    = Normal [("h", [Dir "a" [File "b"]])] ∧
  transformToTree node [item "https://h/a/b/"]
    = Normal [("h", [Dir "a" [Dir "b" []]])] ∧
  (∀ (P : Platform) (it : Item),
     match decompose P it with
     | Normal (isDirectoryUrl, _) =>
         isDirectoryUrl = endsWith (fileUrl it) "/"
     | Throw _ => True
     end) ∧
  transformToTree node [item "https://h/a/b?x=/"]
    = Normal [("h", [Dir "a" [Dir "b" []]])] ∧
  transformToTree node [item "https://h/a/b/?x"]
    = Normal [("h", [Dir "a" [File "b"]])].
Proof.
  split_and!; try (vm_compute; reflexivity).
  intros P it. unfold decompose.
  destruct (encodeURI P (fileUrl it)) as [enc|]; simpl; [|done].
  destruct (new_URL P enc) as [url|]; simpl; [|done].
  by destruct (map_throwing _ _).
Qed.

(** C4.  [encodeURI] escapes the percent sign of an escape that is already
    there, so one round of decoding gives back [a%20b], not [a b]; a raw
    space does come out as a space. *)
Theorem encoded_segment_stays_encoded :
  encodeURI node "https://h/a%20b/c" = Normal "https://h/a%2520b/c" ∧
  decompose node (item "https://h/a%20b/c") = Normal (false, ["h"; "a%20b"; "c"]) ∧
  transformToTree node [item "https://h/a%20b/c"]
    = Normal [("h", [Dir "a%20b" [File "c"]])] ∧
  transformToTree node [item "https://h/a b/c"]
    = Normal [("h", [Dir "a b" [File "c"]])].
Proof. split_and!; vm_compute; reflexivity. Qed.

(** ** Failures of the build *)

(** An item that does not decompose aborts the build: no tree is returned,
    and the error is that item's own when the items before it went
    through. *)
Lemma decompose_failure_aborts (P : Platform) (before after : list Item)
    (it : Item) (e : js_error) :
  decompose P it = Throw e ->
  ∃ e', transformToTree P (before ++ it :: after) = Throw e' ∧
        (∀ t, transformToTree P before = Normal t -> e' = e).
Proof.
  intros Hd. unfold transformToTree. rewrite forEach_app.
  destruct (forEach P before []) as [t0|e0]; simpl.
  - unfold add_item. rewrite Hd. simpl. eexists. split; [done|]. done.
  - eexists. split; [done|]. intros t [=].
Qed.

(** Away from the names of [Object.prototype] the walk cannot throw: the
    build goes through when every item decomposes into such parts. *)
Lemma walk_returns (isd : bool) (parts : list string) :
  Forall (fun part => inherited part = false) parts ->
  ∀ arr, ∃ arr', walk isd parts arr = Normal arr'.
Proof.
  induction 1 as [|part rest Hpart Hrest IH]; intros arr; simpl; [eauto|].
  destruct (negb _ || isd).
  - destruct (list_find _ arr) as [[i [f|k sub]]|] eqn:Hfind.
    + apply list_find_Some in Hfind as (_ & Hf & _). done.
    + apply list_find_Some in Hfind as (_ & Hf & _). simpl in Hf.
      rewrite Hpart, orb_false_r in Hf. apply bool_decide_unpack in Hf as ->.
      destruct rest; [eauto|]. rewrite decide_True by done.
      destruct (IH sub) as [sub' ->]. simpl. eauto.
    + destruct rest; [eauto|]. destruct (IH []) as [sub' ->]. simpl. eauto.
  - destruct (find _ arr) as [[found|]|]; [destruct (truthy found)|..]; eauto.
Qed.

Lemma build_returns (P : Platform) (items : list Item) :
  Forall (fun it => ∃ isd parts, decompose P it = Normal (isd, parts) ∧
                      Forall (fun part => inherited part = false) parts) items ->
  ∀ t, ∃ t', forEach P items t = Normal t'.
Proof.
  induction 1 as [|it items (isd & parts & Hd & Hparts) Hitems IH]; intros t;
    simpl; [eauto|].
  unfold add_item. rewrite Hd. simpl.
  assert (Hins : ∃ t1, insert_parts isd parts t = Normal t1).
  { destruct Hparts as [|host rest Hhost Hrest]; simpl; [eauto|].
    destruct (own_property t host) as [arr|].
    - destruct (walk_returns isd rest Hrest arr) as [arr' ->]. simpl. eauto.
    - rewrite Hhost. destruct (walk_returns isd rest Hrest []) as [arr' ->].
      simpl. eauto. }
  destruct Hins as [t1 ->]. simpl. apply IH.
Qed.

(** C7.  The build also fails on items that decompose: a host name that
    names a member of [Object.prototype] is never given an array, and the
    walk then calls [find] on that member.  And a directory named after
    such a member is dropped without an error when a sibling directory is
    already there. *)
Theorem inherited_member_breaks_build :
  decompose node (item "https://constructor/a")
    = Normal (false, ["constructor"; "a"]) ∧
  transformToTree node [item "https://constructor/a"] = Throw TypeError ∧
  decompose node (item "https://h/toString/")
    = Normal (true, ["h"; "toString"]) ∧
  transformToTree node [item "https://h/a/"; item "https://h/toString/"]
    = Normal [("h", [Dir "a" []])].
Proof. split_and!; vm_compute; reflexivity. Qed.

(** ** The cache *)

(** C8.  A request whose snapshot is younger than [CACHE_DURATION_MS] is
    answered from the cache and fetches nothing; at that age or above, or
    without a snapshot, the handler fetches, and when the fetch succeeds
    it publishes the new tree with the time read on publication. *)
Theorem freshness_boundary (P : Platform) (c : Snapshot) (now later : Z)
    (settled : axios_result) :
  ((now - timestamp c < CACHE_DURATION_MS)%Z ->
     get P (Some c) now settled later
       = (Some c, Send (tree c), [ConsoleLog "Serving from cache"])) ∧
  ((now - timestamp c = CACHE_DURATION_MS - 1)%Z ->
     ∃ log, get P (Some c) now settled later = (Some c, Send (tree c), log) ∧
            AxiosGet endpoint ∉ log) ∧
  (∀ cache, cache = None ∨
            (cache = Some c ∧ (CACHE_DURATION_MS <= now - timestamp c)%Z) ->
     ∃ cache' r log,
       get P cache now settled later = (cache', r, log) ∧
       AxiosGet endpoint ∈ log ∧
       ∀ data, fetchDataAndTransform P settled = Normal data ->
         cache' = Some {| tree := data; timestamp := later |} ∧ r = Send data).
Proof.
  assert (Hfresh : (now - timestamp c < CACHE_DURATION_MS)%Z ->
            get P (Some c) now settled later
              = (Some c, Send (tree c), [ConsoleLog "Serving from cache"])).
  { intros Hage. unfold get, get_begin.
    by rewrite (proj2 (Z.ltb_lt _ _) Hage). }
  split_and!; [done| |].
  - intros Hage. eexists. split; [apply Hfresh; lia|].
    intros H. apply list_elem_of_singleton in H. discriminate.
  - intros cache Hc.
    assert (Hb : get_begin cache now
              = (Awaiting, [ConsoleLog "Fetching new data"; AxiosGet endpoint])).
    { destruct Hc as [->|[-> Hage]]; [done|]. unfold get_begin.
      by rewrite (proj2 (Z.ltb_ge _ _) Hage). }
    unfold get. rewrite Hb. unfold get_resume.
    destruct (fetchDataAndTransform P settled) as [data|err].
    + eexists _, _, _. split_and!; [done | by right; left|].
      by intros ? [= <-].
    + eexists _, _, _. split_and!; [done | by right; left | done].
Qed.

Lemma freshness_boundary_witness :
  let c := {| tree := [("h", [File "b"])]; timestamp := 1000 |} in
  get node (Some c) 60999 (Resolved [item "https://h/c"]) 61500
    = (Some c, Send (tree c), [ConsoleLog "Serving from cache"]) ∧
  ∃ cache' r log,
    get node (Some c) 61000 (Resolved [item "https://h/c"]) 61500
      = (cache', r, log) ∧
    AxiosGet endpoint ∈ log ∧
    ∀ data, fetchDataAndTransform node (Resolved [item "https://h/c"])
              = Normal data ->
      cache' = Some {| tree := data; timestamp := 61500 |} ∧ r = Send data.
Proof.
  intros c. split.
  - apply (freshness_boundary node c 60999 61500). vm_compute. reflexivity.
  - apply (freshness_boundary node c 61000 61500). right.
    split; [reflexivity | vm_compute; discriminate].
Defined.

(** C9.  When the fetch fails, neither writer touches the cache: the
    snapshot that is there when the fetch settles, tree and time, is the
    one that stays.  The request gets the answer for the kind of error
    and no tree. *)
Theorem failure_isolation (P : Platform) (cache : option Snapshot)
    (started later : Z) (settled : axios_result) (err : js_error) :
  fetchDataAndTransform P settled = Throw err ->
  fst (get_resume P cache settled later) = (cache, error_response err) ∧
  fst (updateCache_resume P cache started settled) = cache ∧
  fst (updateCache P cache started settled) = cache ∧
  (∀ now, fst (get_begin cache now) = Awaiting ->
     fst (get P cache now settled later) = (cache, error_response err)) ∧
  (∀ body, error_response err ≠ Send body) ∧
  (∀ rq, err = AxiosError (Some 504%Z) rq ->
     error_response err = Status 504 "Gateway Timeout") ∧
  (∀ rq, err = AxiosError (Some 502%Z) rq ->
     error_response err = Status 502 "Bad Gateway") ∧
  (err = AxiosError None true -> error_response err = Status 502 "Bad Gateway") ∧
  ((∀ rq, err ≠ AxiosError (Some 504%Z) rq) ->
   (∀ rq, err ≠ AxiosError (Some 502%Z) rq) ->
   err ≠ AxiosError None true ->
   error_response err = Status 500 "Failed to fetch data").
Proof.
  intros Hfail. split_and!.
  - unfold get_resume. by rewrite Hfail.
  - unfold updateCache_resume. by rewrite Hfail.
  - unfold updateCache, updateCache_begin, updateCache_resume.
    by rewrite Hfail.
  - intros now Hb. unfold get, get_resume.
    destruct (get_begin cache now) as [[r|] log]; [discriminate|].
    by rewrite Hfail.
  - intros body. destruct err as [| |[s|] [|]]; simpl; try done;
      by repeat case_match.
  - by intros rq ->.
  - by intros rq ->.
  - by intros ->.
  - intros H504 H502 Hnone. destruct err as [| |[s|] rq]; simpl; try done.
    + destruct (Z.eqb_spec s 504) as [->|]; [by destruct (H504 rq)|].
      destruct (Z.eqb_spec s 502) as [->|]; [by destruct (H502 rq)|done].
    + by destruct rq.
Qed.

Lemma failure_isolation_witness :
  let cache := Some {| tree := [("h", [File "b"])]; timestamp := 1000 |} in
  let settled := Rejected (AxiosError (Some 504%Z) true) in
  fst (get node cache 70000 settled 70500)
    = (cache, Status 504 "Gateway Timeout") ∧
  fst (updateCache node cache 70000 settled) = cache.
Proof.
  intros cache settled.
  destruct (failure_isolation node cache 70000 70500 settled
              (AxiosError (Some 504%Z) true) eq_refl)
    as (_ & _ & Hupdate & Hget & _).
  split; [|exact Hupdate].
  apply (Hget 70000%Z). vm_compute. reflexivity.
Defined.

(** * Further properties *)

(** ** The first throw ends the build *)

(** X1.  Once the build of a list has thrown, nothing appended to the list
    changes the outcome: the same error comes out. *)
Theorem throw_is_final (P : Platform) (first later : list Item) (e : js_error) :
  transformToTree P first = Throw e ->
  transformToTree P (first ++ later) = Throw e.
Proof.
  unfold transformToTree. rewrite forEach_app. by intros ->.
Qed.

Lemma throw_is_final_witness :
  transformToTree node
    ([item "https://h/a"; item "no url"] ++ [item "https://h/b"])
  = Throw TypeError.
Proof.
  apply (throw_is_final node [item "https://h/a"; item "no url"]).
  vm_compute. reflexivity.
Defined.

(** ** Hosts do not mix *)

Lemma insert_parts_frame (isd : bool) (host h : string) (rest : list string)
    (t t' : Tree) :
  insert_parts isd (host :: rest) t = Normal t' -> h ≠ host ->
  own_property t' h = own_property t h.
Proof.
  simpl. intros H Hne. destruct (own_property t host) as [arr|].
  - bind_inv H. injection H as <-. by apply own_store_ne.
  - destruct (inherited host).
    + destruct rest; [by injection H as <- | done].
    + bind_inv H. injection H as <-. by apply own_define_ne.
Qed.

Lemma insert_parts_local (isd : bool) (host : string) (rest : list string)
    (t t' u : Tree) :
  insert_parts isd (host :: rest) t = Normal t' ->
  own_property u host = own_property t host ->
  ∃ u', insert_parts isd (host :: rest) u = Normal u' ∧
        own_property u' host = own_property t' host.
Proof.
  simpl. intros H Hu. rewrite Hu.
  destruct (own_property t host) as [arr|] eqn:Hown.
  - bind_inv H. injection H as <-. rewrite H0. simpl. eexists. split; [done|].
    by rewrite (own_store_eq _ _ _ _ Hu), (own_store_eq _ _ _ _ Hown).
  - destruct (inherited host).
    + destruct rest; [|done]. injection H as <-. eexists. split; [done|].
      congruence.
    + bind_inv H. injection H as <-. rewrite H0. simpl. eexists.
      split; [done|]. by rewrite !own_define_eq.
Qed.

Lemma add_item_decomposed (P : Platform) (t : Tree) (it : Item) isd parts :
  decompose P it = Normal (isd, parts) ->
  add_item P t it = insert_parts isd parts t.
Proof. unfold add_item. by intros ->. Qed.

Lemma forEach_host (P : Platform) (h : string) (items : list Item) :
  ∀ t t' u, forEach P items t = Normal t' ->
    own_property u h = own_property t h ->
    ∃ u', forEach P (filter (fun it => host_is P h it) items) u = Normal u' ∧
          own_property u' h = own_property t' h.
Proof.
  induction items as [|it items IH]; intros t t' u H Hu; simpl in H.
  { injection H as <-. by exists u. }
  bind_inv H. unfold add_item in H0. bind_inv H0.
  destruct x0 as [isd [|host rest]]; simpl in H0.
  - injection H0 as <-. rewrite filter_cons_False.
    + by apply (IH t).
    + unfold host_is. rewrite H1. simpl. auto.
  - destruct (decide (host = h)) as [->|Hne].
    + rewrite filter_cons_True.
      2:{ unfold host_is. rewrite H1. rewrite bool_decide_eq_true_2 by done.
          exact I. }
      destruct (insert_parts_local _ _ _ _ _ u H0 Hu) as (u1 & Hu1 & Hown).
      cbn [forEach]. rewrite (add_item_decomposed _ _ _ _ _ H1), Hu1.
      by apply (IH x).
    + rewrite filter_cons_False.
      2:{ unfold host_is. rewrite H1. rewrite bool_decide_eq_false_2 by done.
          simpl. auto. }
      apply (IH x); [done|]. rewrite Hu. symmetry.
      by eapply insert_parts_frame.
Qed.

(** X2.  What the tree holds under a host depends on the items of that
    host alone: building from those items only gives the same array. *)
Theorem host_independent (P : Platform) (h : string) (items : list Item)
    (t : Tree) :
  transformToTree P items = Normal t ->
  ∃ t0, transformToTree P (filter (fun it => host_is P h it) items) = Normal t0 ∧
        own_property t0 h = own_property t h.
Proof. intros H. by apply (forEach_host P h items [] t []). Qed.

Lemma host_independent_witness :
  ∃ t0,
    transformToTree node
      (filter (fun it => host_is node "h" it)
         [item "https://h/a"; item "https://g/x/y"; item "https://h/b/"])
      = Normal t0 ∧
    own_property t0 "h"
      = own_property [("h", [File "a"; Dir "b" []]); ("g", [Dir "x" [File "y"]])]
          "h".
Proof.
  apply (host_independent node "h"
           [item "https://h/a"; item "https://g/x/y"; item "https://h/b/"]).
  vm_compute. reflexivity.
Defined.

(** ** Every item is in the tree *)

Lemma has_member_plain (part : string) (e : entry) :
  inherited part = false -> has_member part e = is_dir_named part e.
Proof. intros H. destruct e; simpl; [done|]. by rewrite H, orb_false_r. Qed.

Lemma find_of_list_find (part : string) (l : list entry) i x :
  inherited part = false ->
  list_find (fun e => has_member part e) l = Some (i, x) ->
  find (is_dir_named part) l = Some x.
Proof.
  intros Hp. revert i. induction l as [|a l IH]; intros i; simpl; [done|].
  rewrite <- (has_member_plain _ a Hp).
  destruct (has_member part a); simpl.
  - by intros [= <- <-].
  - destruct (list_find _ l) as [[j y]|]; [|done]. simpl.
    intros [= <- <-]. by eapply IH.
Qed.

Lemma find_existsb {A} (f : A -> bool) (l : list A) x :
  find f l = Some x -> existsb f l = true.
Proof.
  intros [Hin Hf]%find_some. apply existsb_exists. eauto.
Qed.

Lemma existsb_push {A} (f : A -> bool) (l : list A) x :
  f x = true -> existsb f (l ++ [x]) = true.
Proof. intros Hf. rewrite existsb_app. simpl. rewrite Hf. by rewrite orb_true_r. Qed.

Lemma is_dir_named_own part c : is_dir_named part (Dir part c) = true.
Proof. simpl. by rewrite bool_decide_eq_true_2. Qed.

Lemma is_file_own part : is_file part (File part) = true.
Proof. simpl. by rewrite bool_decide_eq_true_2. Qed.

Lemma walk_contains (isd : bool) (parts : list string) :
  Forall (fun part => inherited part = false) parts ->
  ∀ arr arr', walk isd parts arr = Normal arr' -> contains isd parts arr' = true.
Proof.
  induction 1 as [|part rest Hpart Hrest IH]; intros arr arr' H; [done|].
  simpl in H. destruct rest as [|p2 rest]; simpl in H.
  - (* the last part *)
    destruct isd; simpl.
    + destruct (list_find _ arr) as [[i [f|k sub]]|] eqn:Hfind; [done| |].
      * injection H as <-. eapply find_existsb, find_of_list_find; eauto.
      * injection H as <-. apply existsb_push, is_dir_named_own.
    + destruct (find _ arr) as [[found|k c]|] eqn:Hfind.
      * pose proof Hfind as [[= ->] _]%find_file_Some.
        destruct (truthy part); injection H as <-;
          [by eapply find_existsb | apply existsb_push, is_file_own].
      * by apply find_file_Some in Hfind as [? _].
      * injection H as <-. apply existsb_push, is_file_own.
  - (* a part on the way *)
    destruct (list_find _ arr) as [[i [f|k sub]]|] eqn:Hfind; [done| |].
    + destruct (decide (k = part)) as [->|]; [|done].
      bind_inv H. injection H as <-.
      pose proof (find_member_insert _ _ _ _ _ x Hfind) as Hfind'.
      cbn [contains]. rewrite (find_of_list_find _ _ _ _ Hpart Hfind').
      by apply (IH sub).
    + bind_inv H. injection H as <-.
      pose proof (find_member_push _ _ (Dir part x) Hfind (has_member_own _ _))
        as Hfind'.
      cbn [contains]. rewrite (find_of_list_find _ _ _ _ Hpart Hfind').
      by apply (IH []).
Qed.

Lemma existsb_dir_grows part (arr arr' : list entry) :
  grows arr arr' -> existsb (is_dir_named part) arr = true ->
  existsb (is_dir_named part) arr' = true.
Proof.
  induction 1 as [ext|n old new H IH|n c c' old new Hc IHc H IH]; simpl;
    [done|apply IH|].
  destruct (bool_decide (n = part)); [done | apply IH].
Qed.

Lemma existsb_file_grows part (arr arr' : list entry) :
  grows arr arr' -> existsb (is_file part) arr = true ->
  existsb (is_file part) arr' = true.
Proof.
  induction 1 as [ext|n old new H IH|n c c' old new Hc IHc H IH]; simpl;
    [done| |apply IH].
  destruct (bool_decide (n = part)); [done | apply IH].
Qed.

Lemma contains_grows (isd : bool) (parts : list string) :
  ∀ arr arr', grows arr arr' -> contains isd parts arr = true ->
    contains isd parts arr' = true.
Proof.
  induction parts as [|part rest IH]; intros arr arr' Hg; [done|].
  cbn [contains]. destruct rest as [|p2 rest].
  - destruct isd; eauto using existsb_dir_grows, existsb_file_grows.
  - destruct (find (is_dir_named part) arr) as [[f|k c]|] eqn:Hf; try done.
    destruct (find_dir_grows _ _ _ _ _ Hg Hf) as (c' & -> & Hc). eauto.
Qed.

Lemma insert_parts_contains (isd : bool) (parts : list string) (t t' : Tree) :
  Forall (fun part => inherited part = false) parts ->
  insert_parts isd parts t = Normal t' -> tree_contains t' isd parts = true.
Proof.
  intros Hparts H. destruct Hparts as [|host rest Hhost Hrest]; [done|].
  simpl in H |- *. destruct (own_property t host) as [arr|] eqn:Hown.
  - bind_inv H. injection H as <-. rewrite (own_store_eq _ _ _ _ Hown).
    by eapply walk_contains.
  - rewrite Hhost in H. bind_inv H. injection H as <-.
    rewrite own_define_eq by done. by eapply walk_contains.
Qed.

Lemma tree_contains_grows (isd : bool) (parts : list string) (t t' : Tree) :
  grows_root t t' -> tree_contains t isd parts = true ->
  tree_contains t' isd parts = true.
Proof.
  intros [_ Hg]. destruct parts as [|host rest]; [done|]. simpl.
  destruct (own_property t host) as [arr|] eqn:Hown; [|done].
  destruct (Hg _ _ Hown) as (arr' & -> & Harr). by apply contains_grows.
Qed.

(** X3.  When the build returns, every item whose parts are not names of
    [Object.prototype] is in the tree: its path leads to a file, or to a
    subdirectory for a URL that ends in a slash. *)
Theorem every_item_is_in_the_tree (P : Platform) (items : list Item) (t : Tree)
    (it : Item) (isd : bool) (parts : list string) :
  transformToTree P items = Normal t ->
  it ∈ items ->
  decompose P it = Normal (isd, parts) ->
  Forall (fun part => inherited part = false) parts ->
  tree_contains t isd parts = true.
Proof.
  intros Ht (l1 & l2 & ->)%list_elem_of_split Hd Hparts.
  unfold transformToTree in Ht. rewrite forEach_app in Ht.
  bind_inv Ht. cbn [forEach] in Ht. bind_inv Ht.
  rewrite (add_item_decomposed _ _ _ _ _ Hd) in Ht1.
  eapply tree_contains_grows; [by eapply forEach_grows|].
  by eapply insert_parts_contains.
Qed.

Lemma every_item_is_in_the_tree_witness :
  tree_contains [("ex.com", [Dir "docs" [File "readme.txt"]; File "img.png"])]
    false ["ex.com"; "docs"; "readme.txt"] = true.
Proof.
  apply (every_item_is_in_the_tree node
           [item "https://ex.com/docs/readme.txt"; item "https://ex.com/docs/";
            item "https://ex.com/img.png"] _
           (item "https://ex.com/docs/readme.txt")).
  - vm_compute. reflexivity.
  - by left.
  - vm_compute. reflexivity.
  - repeat constructor.
Defined.

(** ** Nothing but the items is in the tree *)

Lemma AllNames_nil S : AllNames S [].
Proof. constructor; intros ? **; by apply not_elem_of_nil in H. Qed.

Lemma AllNames_push S (arr : list entry) (e : entry) :
  AllNames S arr -> S (name_of e) ->
  (∀ k c, e = Dir k c -> AllNames S c) -> AllNames S (arr ++ [e]).
Proof.
  intros [? Hn Hsub] He Hc. constructor.
  - intros e' [?|Heq%list_elem_of_singleton]%elem_of_app; [eauto|by subst].
  - intros k c [?|?%list_elem_of_singleton]%elem_of_app; eauto.
Qed.

Lemma AllNames_insert S (arr : list entry) (i : nat) k sub sub' :
  AllNames S arr -> arr !! i = Some (Dir k sub) -> AllNames S sub' ->
  AllNames S (<[i := Dir k sub']> arr).
Proof.
  intros [? Hn Hsub] Hi Hs. constructor.
  - intros e [->|?]%elem_of_insert_inv; [|eauto].
    apply (Hn (Dir k sub)). by eapply list_elem_of_lookup_2.
  - intros k0 c0 [[= -> ->]|?]%elem_of_insert_inv; eauto.
Qed.

Lemma walk_names S (isd : bool) (parts : list string) :
  Forall S parts ->
  ∀ arr arr', AllNames S arr -> walk isd parts arr = Normal arr' ->
    AllNames S arr'.
Proof.
  induction 1 as [|part rest Hpart Hrest IH]; intros arr arr' Ha H; simpl in H.
  { by injection H as <-. }
  destruct (negb _ || isd).
  - destruct (list_find _ arr) as [[i [f|k sub]]|] eqn:Hfind; [done| |].
    + destruct rest as [|p2 rest]; [by injection H as <-|].
      destruct (decide (k = part)) as [->|]; [|done].
      bind_inv H. injection H as <-.
      pose proof (find_lookup _ _ _ _ Hfind) as Hi.
      eapply AllNames_insert; [done..|].
      eapply IH; [|done]. destruct Ha as [? _ Hsub].
      eapply Hsub, list_elem_of_lookup_2, Hi.
    + destruct rest as [|p2 rest].
      * injection H as <-. apply AllNames_push; [done..|].
        intros k c [= _ <-]. apply AllNames_nil.
      * bind_inv H. injection H as <-. apply AllNames_push; [done..|].
        intros k c [= _ <-]. eapply IH; [apply AllNames_nil | done].
  - assert (Hpush : AllNames S (arr ++ [File part])).
    { apply AllNames_push; [done..|]. intros; discriminate. }
    destruct (find _ arr) as [[found|k c]|];
      [destruct (truthy found)|..]; by injection H as <-.
Qed.

Lemma AllNames_sequence S (arr l : list entry) (e : entry) :
  sequence_in l arr -> AllNames S arr -> e ∈ l -> S (name_of e).
Proof.
  induction 1 as [arr|arr k c l Hin Hl IH]; inversion 1 as [? Hn Hsub]; subst.
  - apply Hn.
  - apply IH. by apply (Hsub k).
Qed.

Lemma AllNames_mono (S S' : string -> Prop) (arr : list entry) :
  (∀ n, S n -> S' n) -> AllNames S arr -> AllNames S' arr.
Proof.
  intros HS. revert arr.
  apply (entries_both
           (fun e => ∀ k c, e = Dir k c -> AllNames S c -> AllNames S' c)
           (fun arr => AllNames S arr -> AllNames S' arr)).
  - intros; discriminate.
  - intros n c IH k c0 [= _ <-]. exact IH.
  - intros _. apply AllNames_nil.
  - intros e l He Hl. inversion 1 as [? Hn Hsub]; subst. constructor.
    + eauto.
    + intros k c [<-|Hin]%elem_of_cons.
      * eapply He; [done|]. apply (Hsub k). by left.
      * assert (Hl' : AllNames S' l).
        { apply Hl. constructor.
          - intros e' He'. apply Hn. by right.
          - intros k' c' Hc'. apply (Hsub k'). by right. }
        inversion Hl' as [? _ Hsub']; subst. by apply (Hsub' k).
Qed.

Lemma host_of_snoc P (items : list Item) (it : Item) h :
  host_of P items h -> host_of P (items ++ [it]) h.
Proof.
  intros (it0 & isd & rest & Hin & Hd). exists it0, isd, rest.
  split; [|done]. apply elem_of_app. by left.
Qed.

Lemma segment_of_snoc P (items : list Item) (it : Item) n :
  segment_of P items n -> segment_of P (items ++ [it]) n.
Proof.
  intros (it0 & isd & host & rest & Hin & Hd & Hn). exists it0, isd, host, rest.
  split_and!; [|done..]. apply elem_of_app. by left.
Qed.

Lemma from_items_snoc P (items : list Item) (it : Item) (t : Tree) :
  from_items P items t -> from_items P (items ++ [it]) t.
Proof.
  intros [Hh Hn]. split.
  - intros h Hin. by apply host_of_snoc, Hh.
  - intros h arr Hin. eapply AllNames_mono; [|by eapply Hn].
    intros n. apply segment_of_snoc.
Qed.

Lemma add_item_from_items P (items : list Item) (it : Item) (t t' : Tree) :
  from_items P items t -> add_item P t it = Normal t' ->
  from_items P (items ++ [it]) t'.
Proof.
  intros Hinv H. apply (from_items_snoc _ _ it) in Hinv as [Hh Hn].
  unfold add_item in H. bind_inv H. destruct x as [isd [|host rest]].
  { simpl in H. injection H as <-. by split. }
  assert (Hit : it ∈ items ++ [it]).
  { apply elem_of_app. right. by left. }
  assert (Hrest : Forall (segment_of P (items ++ [it])) rest).
  { apply Forall_forall. intros n Hin. by exists it, isd, host, rest. }
  simpl in H. destruct (own_property t host) as [arr|] eqn:Hown.
  - bind_inv H. injection H as <-. split; [by rewrite store_keys|].
    intros h a [[-> ->]|Hin]%store_elem; [|eauto].
    eapply walk_names; [done| |done]. eauto using own_property_Some.
  - destruct (inherited host).
    + destruct rest; [|done]. injection H as <-. by split.
    + bind_inv H. injection H as <-. split.
      * intros h Hin. rewrite define_perm in Hin.
        apply elem_of_cons in Hin as [->|Hin]; [|eauto].
        by exists it, isd, rest.
      * intros h a Hin. rewrite define_perm in Hin.
        apply elem_of_cons in Hin as [[= -> ->]|Hin]; [|eauto].
        eapply walk_names; [done|apply AllNames_nil|done].
Qed.

Lemma forEach_from_items P (todo : list Item) :
  ∀ done t t', from_items P done t -> forEach P todo t = Normal t' ->
    from_items P (done ++ todo) t'.
Proof.
  induction todo as [|it todo IH]; intros done t t' Hinv H; simpl in H.
  - injection H as <-. by rewrite app_nil_r.
  - bind_inv H. replace (done ++ it :: todo) with ((done ++ [it]) ++ todo)
      by by rewrite <- app_assoc.
    eapply IH; [|done]. by eapply add_item_from_items.
Qed.

(** X4.  The tree holds nothing of its own making: every key of the root
    is the host name of an item, and the name of every entry, at any
    depth, is a segment of an item. *)
Theorem names_come_from_items (P : Platform) (items : list Item) (t : Tree) :
  transformToTree P items = Normal t ->
  (∀ h, h ∈ t.*1 -> host_of P items h) ∧
  (∀ h arr l e, (h, arr) ∈ t -> sequence_in l arr -> e ∈ l ->
     segment_of P items (name_of e)).
Proof.
  intros Ht.
  assert (Hinv : from_items P ([] ++ items) t).
  { eapply forEach_from_items; [|exact Ht]. split.
    - intros h Hin. by apply not_elem_of_nil in Hin.
    - intros h arr Hin. by apply not_elem_of_nil in Hin. }
  destruct Hinv as [Hh Hn]. split; [done|].
  intros h arr l e Hin Hl He. eapply AllNames_sequence; eauto.
Qed.

Lemma names_come_from_items_witness :
  let items := [item "https://h/a/b"; item "https://h/c/"] in
  let t := [("h", [Dir "a" [File "b"]; Dir "c" []])] in
  (∀ h, h ∈ t.*1 -> host_of node items h) ∧
  (∀ h arr l e, (h, arr) ∈ t -> sequence_in l arr -> e ∈ l ->
     segment_of node items (name_of e)).
Proof.
  intros items t. apply (names_come_from_items node items t).
  vm_compute. reflexivity.
Defined.

(** ** The directories on the way to an item are there already *)

Lemma walk_prefix_absorbed (isd : bool) (p q : list string) :
  q ≠ [] ∨ isd = true ->
  ∀ arr arr', walk isd (p ++ q) arr = Normal arr' ->
    walk true p arr' = Normal arr'.
Proof.
  intros Hq. induction p as [|part p IH]; intros arr arr' H; [done|].
  assert (Hdir : negb (match p ++ q with [] => true | _ => false end) || isd
                 = true).
  { destruct p, q, isd, Hq; try done. }
  cbn [app walk] in H. rewrite Hdir in H. cbn [walk]. rewrite orb_true_r.
  destruct (list_find _ arr) as [[i [f|k sub]]|] eqn:Hfind; [done| |].
  - destruct (p ++ q) as [|p2 rest] eqn:Hrest.
    + apply app_eq_nil in Hrest as [-> ->]. injection H as <-.
      by rewrite Hfind.
    + destruct (decide (k = part)) as [->|]; [|done].
      bind_inv H. injection H as <-.
      rewrite (find_member_insert _ _ _ _ _ x Hfind).
      destruct p as [|p3 p]; [done|].
      rewrite decide_True by done.
      rewrite (IH _ _ H0). simpl. by rewrite list_insert_insert_eq.
  - destruct (p ++ q) as [|p2 rest] eqn:Hrest.
    + apply app_eq_nil in Hrest as [-> ->]. injection H as <-.
      by rewrite (find_member_push _ _ _ Hfind (has_member_own _ _)).
    + bind_inv H. injection H as <-.
      rewrite (find_member_push _ _ _ Hfind (has_member_own _ _)).
      destruct p as [|p3 p]; [done|].
      rewrite decide_True by done.
      rewrite (IH _ _ H0). simpl.
      replace (List.length arr) with (List.length arr + 0) by lia.
      by rewrite insert_app_r.
Qed.

Lemma insert_parts_prefix_absorbed (isd : bool) (host : string)
    (p q : list string) (t t' : Tree) :
  q ≠ [] ∨ isd = true ->
  insert_parts isd (host :: p ++ q) t = Normal t' ->
  insert_parts true (host :: p) t' = Normal t'.
Proof.
  intros Hq H. simpl in H.
  assert (Hdone : ∀ arr', own_property t' host = Some arr' ->
            walk true p arr' = Normal arr' ->
            insert_parts true (host :: p) t' = Normal t').
  { intros arr' Hown Hw. simpl. rewrite Hown, Hw. simpl.
    by rewrite store_same. }
  destruct (own_property t host) as [arr|] eqn:Hown.
  - bind_inv H. injection H as <-.
    eauto using own_store_eq, walk_prefix_absorbed.
  - destruct (inherited host) eqn:Hinh.
    + destruct (p ++ q) eqn:Hpq; [|done].
      apply app_eq_nil in Hpq as [-> ->]. injection H as <-. simpl.
      by rewrite Hown, Hinh.
    + bind_inv H. injection H as <-.
      eauto using own_define_eq, walk_prefix_absorbed.
Qed.

(** X5.  After an item, the URL of any directory on its path, and of the
    host itself, adds nothing: such a directory item can be dropped from
    the rest of the list. *)
Theorem directory_on_the_path_absorbed (P : Platform) (u d : Item)
    (before between after : list Item) (isd : bool) (host : string)
    (p q : list string) :
  decompose P u = Normal (isd, host :: p ++ q) ->
  decompose P d = Normal (true, host :: p) ->
  q ≠ [] ∨ isd = true ->
  transformToTree P (before ++ u :: between ++ d :: after) =
  transformToTree P (before ++ u :: between ++ after).
Proof.
  intros Hu Hd Hq. unfold transformToTree. rewrite !forEach_app.
  destruct (forEach P before []) as [t0|e]; simpl; [|done].
  destruct (add_item P t0 u) as [t1|e] eqn:H1; simpl; [|done].
  rewrite !forEach_app.
  destruct (forEach P between t1) as [t2|e] eqn:H2; simpl; [|done].
  assert (Hd2 : add_item P t2 d = Normal t2); [|by rewrite Hd2].
  rewrite (add_item_decomposed _ _ _ _ _ Hu) in H1.
  apply (add_item_absorbed P t1).
  - rewrite (add_item_decomposed _ _ _ _ _ Hd).
    by eapply insert_parts_prefix_absorbed.
  - by eapply forEach_grows.
Qed.

Lemma directory_on_the_path_absorbed_witness :
  transformToTree node
    ([] ++ item "https://h/a/b/c.txt"
        :: [item "https://h/x"] ++ item "https://h/a/" :: [item "https://h/y"]) =
  transformToTree node
    ([] ++ item "https://h/a/b/c.txt"
        :: [item "https://h/x"] ++ [item "https://h/y"]).
Proof.
  apply (directory_on_the_path_absorbed node _ _ [] [item "https://h/x"]
           [item "https://h/y"] false "h" ["a"] ["b"; "c.txt"]).
  - vm_compute. reflexivity.
  - vm_compute. reflexivity.
  - left. discriminate.
Defined.

(** ** No entry without a name *)

(** X6.  Empty path segments are dropped before the walk, so [//] in a URL
    makes no directory: no entry of the tree has the empty name. *)
Theorem no_empty_names (P : Platform) (items : list Item) (t : Tree)
    (h : string) (arr l : list entry) (e : entry) :
  decodes_nonempty P ->
  transformToTree P items = Normal t ->
  (h, arr) ∈ t -> sequence_in l arr -> e ∈ l ->
  name_of e ≠ EmptyString.
Proof.
  intros Hdec Ht Hin Hl He.
  assert (Hinv : from_items P ([] ++ items) t).
  { eapply forEach_from_items; [|exact Ht].
    split; intros ? **; by apply not_elem_of_nil in H. }
  destruct Hinv as [_ Hn].
  pose proof (AllNames_sequence _ _ _ _ Hl (Hn _ _ Hin) He)
    as (it & isd & host & rest & _ & Hd & Hrest).
  apply decompose_parts in Hd as (_ & host' & rest' & [= <- <-] & Hall);
    [|done].
  rewrite Forall_forall in Hall. apply Hall in Hrest.
  by destruct (name_of e).
Qed.

Lemma no_empty_names_witness :
  name_of (Dir "a" [File "b"]) ≠ EmptyString.
Proof.
  apply (no_empty_names node [item "https://h//a///b"]
           [("h", [Dir "a" [File "b"]])] "h" [Dir "a" [File "b"]]
           [Dir "a" [File "b"]]).
  - exact node_decodes_nonempty.
  - vm_compute. reflexivity.
  - by left.
  - constructor.
  - by left.
Defined.

(** ** The cache over time *)

Lemma write_keeps (P : Platform) (cache : option Snapshot) (s : settlement) :
  is_Some cache -> is_Some (write P cache s).
Proof.
  intros Hc. destruct s as [settled later|started settled]; simpl;
    unfold get_resume, updateCache_resume;
    by destruct (fetchDataAndTransform P settled).
Qed.

Lemma write_built (P : Platform) (cache : option Snapshot) (s : settlement)
    (c : Snapshot) :
  write P cache s = Some c ->
  cache = Some c ∨ fetchDataAndTransform P (fetched s) = Normal (tree c).
Proof.
  destruct s as [settled later|started settled]; simpl;
    unfold get_resume, updateCache_resume;
    destruct (fetchDataAndTransform P settled) as [data|err]; simpl;
    intros H; try (by left); injection H as <-; by right.
Qed.

(** X7.  Once a snapshot is in the cache the cache is never empty again,
    and whatever the order in which fetches settle, the tree in the cache
    is one the builder returned for the items of one of them. *)
Theorem cache_holds_built_trees (P : Platform) (ss : list settlement)
    (cache : option Snapshot) :
  (is_Some cache -> is_Some (writes P ss cache)) ∧
  (∀ c, writes P ss None = Some c ->
     ∃ s items, s ∈ ss ∧ fetched s = Resolved items ∧
                transformToTree P items = Normal (tree c)).
Proof.
  split.
  - revert cache. induction ss as [|s ss IH]; intros cache Hc; [done|].
    simpl. by apply IH, write_keeps.
  - assert (Hgoal : ∀ l cache c, writes P l cache = Some c ->
              cache = Some c ∨
              ∃ s items, s ∈ l ∧ fetched s = Resolved items ∧
                         transformToTree P items = Normal (tree c)).
    { clear. induction l as [|s l IH]; intros cache c Hc; [by left|].
      simpl in Hc. apply IH in Hc as [Hc|(s' & items & Hin & Hs)].
      - apply write_built in Hc as [Hc|Hc]; [by left|right].
        exists s. destruct (fetched s) as [items|err] eqn:Hs; [|done].
        exists items. split; [by left | done].
      - right. exists s', items. split; [by right | done]. }
    intros c Hc. by apply Hgoal in Hc as [?|?].
Qed.

Lemma cache_holds_built_trees_witness :
  let ss := [RefreshSettled 0 (Rejected (AxiosError None true));
             RequestSettled (Resolved [item "https://h/a"]) 500;
             RefreshSettled 60000 (Rejected (AxiosError (Some 504%Z) true))] in
  is_Some (writes node ss (Some {| tree := []; timestamp := 0 |})) ∧
  ∃ s items, s ∈ ss ∧ fetched s = Resolved items ∧
             transformToTree node items = Normal [("h", [File "a"])].
Proof.
  intros ss.
  destruct (cache_holds_built_trees node ss
              (Some {| tree := []; timestamp := 0 |})) as [H1 H2].
  split; [by apply H1|].
  apply (H2 {| tree := [("h", [File "a"])]; timestamp := 500 |}).
  vm_compute. reflexivity.
Defined.

(** X8.  A tree that has been published is served to every request made
    less than [CACHE_DURATION_MS] after its time stamp, with no fetch; the
    stamp of a request's fetch is the time it settled, that of a refresh
    the time it started. *)
Theorem published_snapshot_is_served (P : Platform) (cache : option Snapshot)
    (settled : axios_result) (data : Tree) (stamp now : Z) (s : settlement) :
  fetchDataAndTransform P settled = Normal data ->
  s = RequestSettled settled stamp ∨ s = RefreshSettled stamp settled ->
  (now - stamp < CACHE_DURATION_MS)%Z ->
  ∀ settled' later,
    get P (write P cache s) now settled' later
    = (Some {| tree := data; timestamp := stamp |}, Send data,
       [ConsoleLog "Serving from cache"]).
Proof.
  intros Hdata Hs Hage settled' later.
  assert (Hw : write P cache s = Some {| tree := data; timestamp := stamp |}).
  { destruct Hs as [-> | ->]; simpl;
      unfold get_resume, updateCache_resume; by rewrite Hdata. }
  rewrite Hw. unfold get, get_begin. simpl.
  by rewrite (proj2 (Z.ltb_lt _ _) Hage).
Qed.

Lemma published_snapshot_is_served_witness :
  get node
    (write node None (RefreshSettled 1000 (Resolved [item "https://h/a"])))
    60999 (Rejected TypeError) 61500
  = (Some {| tree := [("h", [File "a"])]; timestamp := 1000 |},
     Send [("h", [File "a"])], [ConsoleLog "Serving from cache"]).
Proof.
  apply (published_snapshot_is_served node None (Resolved [item "https://h/a"])).
  - vm_compute. reflexivity.
  - by right.
  - vm_compute. reflexivity.
Defined.

(** X9.  The two writers are not ordered: a refresh that started before a
    request's fetch settled, and settles after it, replaces the newer
    snapshot by its own with the older time stamp, and a request that the
    newer snapshot would have answered fetches again. *)
Theorem late_refresh_overwrites (P : Platform) (cache : option Snapshot)
    (s1 s2 : axios_result) (d1 d2 : Tree) (started later now : Z) :
  fetchDataAndTransform P s1 = Normal d1 ->
  fetchDataAndTransform P s2 = Normal d2 ->
  (started < later)%Z ->
  (now - later < CACHE_DURATION_MS)%Z ->
  (CACHE_DURATION_MS <= now - started)%Z ->
  let c1 := write P cache (RequestSettled s1 later) in
  let c2 := write P c1 (RefreshSettled started s2) in
  c1 = Some {| tree := d1; timestamp := later |} ∧
  c2 = Some {| tree := d2; timestamp := started |} ∧
  (get_begin c1 now).1 = Answered (Send d1) ∧
  (get_begin c2 now).1 = Awaiting.
Proof.
  intros H1 H2 Hlt Hfresh Hstale. simpl.
  unfold get_resume, updateCache_resume. rewrite H1, H2. simpl.
  split_and!; [done..| |].
  - by rewrite (proj2 (Z.ltb_lt _ _) Hfresh).
  - by rewrite (proj2 (Z.ltb_ge _ _) Hstale).
Qed.

Lemma late_refresh_overwrites_witness :
  let c1 := write node None (RequestSettled (Resolved [item "https://h/new"]) 5000) in
  let c2 := write node c1 (RefreshSettled 1000 (Resolved [item "https://h/old"])) in
  c1 = Some {| tree := [("h", [File "new"])]; timestamp := 5000 |} ∧
  c2 = Some {| tree := [("h", [File "old"])]; timestamp := 1000 |} ∧
  (get_begin c1 62000).1 = Answered (Send [("h", [File "new"])]) ∧
  (get_begin c2 62000).1 = Awaiting.
Proof.
  apply (late_refresh_overwrites node None (Resolved [item "https://h/new"])
           (Resolved [item "https://h/old"]) _ _ 1000 5000 62000);
    vm_compute; congruence.
Defined.

(** ** Plain URLs come apart into their segments *)

Ltac each_char c := destruct c as [[] [] [] [] [] [] [] []].

(** Replaces [encode_unit c], for a given character, by its value. *)
Ltac unit_value :=
  match goal with
  | |- context [Ecma.encode_unit ?c] =>
      let x := eval vm_compute in (Ecma.encode_unit c) in
      change (Ecma.encode_unit c) with x
  | H : context [Ecma.encode_unit ?c] |- _ =>
      let x := eval vm_compute in (Ecma.encode_unit c) in
      change (Ecma.encode_unit c) with x in H
  end.

Lemma append_cons (c : ascii) (s t : string) :
  (String c s ++ t)%string = String c (s ++ t)%string.
Proof. reflexivity. Qed.

Lemma append_nil_l (s : string) : (EmptyString ++ s)%string = s.
Proof. reflexivity. Qed.

Lemma append_nil_r (s : string) : (s ++ EmptyString)%string = s.
Proof. induction s as [|c s IH]; [done|]. by rewrite append_cons, IH. Qed.

Lemma append_assoc (a b c : string) :
  ((a ++ b) ++ c)%string = (a ++ (b ++ c))%string.
Proof. induction a as [|x a IH]; [done|]. by rewrite !append_cons, IH. Qed.

Lemma encode_all_app (a b : string) :
  Ecma.encode_all (a ++ b) = (Ecma.encode_all a ++ Ecma.encode_all b)%string.
Proof.
  induction a as [|c a IH]; [done|].
  rewrite append_cons. cbn [Ecma.encode_all]. by rewrite IH, append_assoc.
Qed.

(** Decoding undoes encoding, one code unit at a time. *)
Lemma decode_encode (s : string) :
  Ecma.decodeURIComponent (Ecma.encode_all s) = Normal s.
Proof.
  induction s as [|c s IH]; [done|].
  cbn [Ecma.encode_all]. remember (Ecma.encode_all s) as r eqn:Hr. clear Hr.
  each_char c; unit_value; rewrite ?append_cons, append_nil_l; simpl;
    rewrite IH; reflexivity.
Qed.

Lemma decode_encode_all (segs : list string) :
  map_throwing Ecma.decodeURIComponent (map Ecma.encode_all segs) = Normal segs.
Proof.
  induction segs as [|s segs IH]; [done|]. simpl.
  rewrite decode_encode. simpl. by rewrite IH.
Qed.

(** What encoding does to the characters of a host, of a separator and of
    a plain segment. *)
Lemma host_char_kept (c : ascii) :
  Ecma.host_char c = true -> Ecma.encode_unit c = String c EmptyString.
Proof. each_char c; by vm_compute. Qed.

Lemma host_char_clean (c : ascii) :
  Ecma.host_char c = true -> Ecma.in_string c "/?#" = false.
Proof. each_char c; by vm_compute. Qed.

Lemma encode_unit_clean (c : ascii) :
  Ecma.in_string c "/?#" = false -> clean "/?#" (Ecma.encode_unit c) = true.
Proof. each_char c; by vm_compute. Qed.

Lemma clean_weaken (c : ascii) :
  Ecma.in_string c "/?#" = false ->
  Ecma.in_string c "?#" = false ∧ Ascii.eqb c "/" = false.
Proof. each_char c; by vm_compute. Qed.

Lemma clean_app (stops a b : string) :
  clean stops (a ++ b) = clean stops a && clean stops b.
Proof.
  induction a as [|c a IH]; [done|]. rewrite append_cons. unfold clean in *.
  simpl. by rewrite IH, andb_assoc.
Qed.

Lemma encode_host (h : string) :
  forallb Ecma.host_char (list_ascii_of_string h) = true ->
  Ecma.encode_all h = h.
Proof.
  induction h as [|c h IH]; [done|]. simpl.
  intros [Hc Hh]%andb_prop. by rewrite (host_char_kept _ Hc), IH.
Qed.

Lemma host_clean (h : string) :
  forallb Ecma.host_char (list_ascii_of_string h) = true ->
  clean "/?#" h = true.
Proof.
  unfold clean. induction h as [|c h IH]; [done|]. simpl.
  intros [Hc Hh]%andb_prop. by rewrite (host_char_clean _ Hc), IH.
Qed.

Lemma encode_all_clean (s : string) :
  clean "/?#" s = true -> clean "/?#" (Ecma.encode_all s) = true.
Proof.
  induction s as [|c s IH]; [done|]. unfold clean at 1. simpl.
  intros [Hc Hs]%andb_prop. apply negb_true_iff in Hc.
  rewrite clean_app, (encode_unit_clean _ Hc). by apply IH.
Qed.

Lemma encode_all_truthy (s : string) :
  truthy s = true -> truthy (Ecma.encode_all s) = true.
Proof.
  destruct s as [|c s]; [done|]. intros _. cbn [Ecma.encode_all].
  remember (Ecma.encode_all s) as r. each_char c; unit_value; done.
Qed.

(** Encoding makes no dot segment of a segment that is none. *)
Lemma encode_all_empty (s : string) :
  Ecma.encode_all s = EmptyString -> s = EmptyString.
Proof.
  destruct s as [|c s]; [done|]. cbn [Ecma.encode_all].
  remember (Ecma.encode_all s) as r. each_char c; unit_value; done.
Qed.

Lemma encode_all_dot (s : string) : Ecma.encode_all s = "." -> s = ".".
Proof.
  destruct s as [|c s]; [done|]. cbn [Ecma.encode_all].
  remember (Ecma.encode_all s) as r.
  each_char c; unit_value; try done.
  rewrite append_cons, append_nil_l. intros [= ->].
  symmetry in Heqr. by apply encode_all_empty in Heqr as ->.
Qed.

Lemma encode_all_no_escaped_dot (s : string) :
  Ecma.encode_all s ≠ "%2e" ∧ Ecma.encode_all s ≠ "%2E".
Proof.
  destruct s as [|c s]; [done|]. cbn [Ecma.encode_all].
  remember (Ecma.encode_all s) as r. each_char c; unit_value; done.
Qed.

Lemma encode_all_single_dot (s : string) :
  String.eqb s "." = false -> Ecma.single_dot (Ecma.encode_all s) = false.
Proof.
  intros Hs. apply bool_decide_eq_false. intros Hin.
  destruct (encode_all_no_escaped_dot s) as [H1 H2].
  repeat (apply elem_of_cons in Hin as [Hin|Hin]; [try done|]).
  - apply encode_all_dot in Hin as ->. done.
  - by apply not_elem_of_nil in Hin.
Qed.

Lemma encode_all_double_dot (s : string) :
  String.eqb s ".." = false -> Ecma.double_dot (Ecma.encode_all s) = false.
Proof.
  destruct s as [|c s]; [by vm_compute|].
  intros Hs. apply bool_decide_eq_false. intros Hin.
  cbn [Ecma.encode_all] in Hin. remember (Ecma.encode_all s) as r.
  destruct (encode_all_no_escaped_dot s) as [H1 H2]. rewrite <- Heqr in H1, H2.
  repeat (apply elem_of_cons in Hin as [Hin|Hin];
          [revert Hs Hin; each_char c; unit_value; intros Hs Hin; try done;
           rewrite append_cons, append_nil_l in Hin; injection Hin as ->;
           try done|]).
  - symmetry in Heqr. by apply encode_all_dot in Heqr as ->.
  - by apply not_elem_of_nil in Hin.
Qed.

(** Breaking and splitting strings whose parts are clean. *)
Lemma break_at_clean (stops a b : string) :
  clean stops a = true ->
  (b = EmptyString ∨ ∃ c b', b = String c b' ∧ Ecma.in_string c stops = true) ->
  Ecma.break_at stops (a ++ b) = (a, b).
Proof.
  intros Ha Hb. induction a as [|c a IH].
  - rewrite append_nil_l. destruct Hb as [->|(c & b' & -> & Hc)]; [done|].
    simpl. by rewrite Hc.
  - unfold clean in Ha. simpl in Ha. apply andb_prop in Ha as [Hc Ha].
    apply negb_true_iff in Hc. rewrite append_cons. simpl.
    by rewrite Hc, (IH Ha).
Qed.

Lemma split_clean (a : string) :
  clean "/?#" a = true ->
  split "/" a = [a] ∧ ∀ b, split "/" (a ++ String "/" b) = a :: split "/" b.
Proof.
  induction a as [|c a IH]; [done|]. unfold clean at 1. simpl.
  intros [Hc Ha]%andb_prop. apply negb_true_iff, clean_weaken in Hc as [_ Hc].
  destruct (IH Ha) as [IH1 IH2]. rewrite Hc, IH1. split; [done|].
  intros b. by rewrite IH2.
Qed.

Lemma serialize_path_cons (x : string) (l : list string) :
  Ecma.serialize_path (x :: l)
  = String "/" (x ++ Ecma.serialize_path l)%string.
Proof. reflexivity. Qed.

Lemma split_segments (x : string) (l : list string) (slash : bool) :
  Forall (fun s => clean "/?#" s = true) (x :: l) ->
  split "/" (x ++ Ecma.serialize_path l ++ (if slash then "/" else EmptyString))
  = x :: l ++ (if slash then [EmptyString] else []).
Proof.
  revert x. induction l as [|y l IH]; intros x Hall.
  - apply Forall_cons in Hall as [Hx _].
    destruct (split_clean x Hx) as [H1 H2]. cbn [Ecma.serialize_path foldr].
    rewrite append_nil_l. destruct slash.
    + by rewrite H2.
    + by rewrite append_nil_r, H1.
  - apply Forall_cons in Hall as [Hx Hall].
    destruct (split_clean x Hx) as [_ H2].
    by rewrite serialize_path_cons, append_cons, H2, append_assoc, (IH y Hall).
Qed.

Lemma split_serialized (l : list string) :
  Forall (fun s => clean "/?#" s = true) l ->
  split "/" (Ecma.serialize_path l) = EmptyString :: l.
Proof.
  destruct l as [|x l]; [done|]. intros Hall.
  rewrite serialize_path_cons. cbn [split]. simpl Ascii.eqb. cbv iota.
  f_equal. pose proof (split_segments x l false Hall) as H.
  by rewrite append_nil_r, app_nil_r in H.
Qed.

Lemma path_state_plain (segs path : list string) :
  Forall (fun s => Ecma.single_dot s = false ∧ Ecma.double_dot s = false) segs ->
  Ecma.path_state path segs = path ++ segs.
Proof.
  intros Hall. revert path.
  induction Hall as [|s segs [H1 H2] _ IH]; intros path; simpl.
  - by rewrite app_nil_r.
  - rewrite H1, H2, IH. by rewrite <- app_assoc.
Qed.

Lemma filter_truthy (l : list string) :
  Forall (fun s => truthy s = true) l ->
  filter (fun part => truthy part) l = l.
Proof.
  induction 1 as [|s l Hs _ IH]; [done|].
  rewrite filter_cons_True by by rewrite Hs. by rewrite IH.
Qed.

Lemma parse_path_segments (segs : list string) (slash : bool) :
  Forall (fun s => clean "/?#" s = true) segs ->
  Forall (fun s => truthy s = true) segs ->
  Forall (fun s => Ecma.single_dot s = false ∧ Ecma.double_dot s = false) segs ->
  filter (fun part => truthy part)
    (split "/" (Ecma.parse_path
       (Ecma.serialize_path segs ++ (if slash then "/" else EmptyString))))
  = segs.
Proof.
  intros Hclean Htruthy Hdots. destruct segs as [|x l].
  { by destruct slash. }
  unfold Ecma.parse_path. rewrite serialize_path_cons, append_cons.
  cbv beta iota. rewrite append_assoc, (split_segments x l slash Hclean).
  set (tail := if slash then [EmptyString] else []).
  assert (Htail_clean : Forall (fun s => clean "/?#" s = true) tail)
    by (destruct slash; repeat constructor).
  assert (Htail_dots : Forall (fun s => Ecma.single_dot s = false ∧
                                        Ecma.double_dot s = false) tail)
    by (destruct slash; repeat constructor).
  rewrite path_state_plain by (rewrite app_comm_cons; by apply Forall_app).
  rewrite app_nil_l, split_serialized
    by (rewrite app_comm_cons; by apply Forall_app).
  rewrite filter_cons_False by (simpl; auto).
  rewrite app_comm_cons, filter_app, (filter_truthy _ Htruthy).
  destruct slash; subst tail; simpl; [|by rewrite app_nil_r].
  rewrite filter_cons_False by (simpl; auto).
  by rewrite filter_nil, app_nil_r.
Qed.

Lemma encode_serialized (segs : list string) :
  Ecma.encode_all (Ecma.serialize_path segs)
  = Ecma.serialize_path (map Ecma.encode_all segs).
Proof.
  induction segs as [|x l IH]; [done|].
  rewrite serialize_path_cons. cbn [Ecma.encode_all map].
  rewrite serialize_path_cons, encode_all_app, IH. by unit_value.
Qed.

(** The last character decides [endsWith "/"]. *)
Lemma last_char_None (s : string) : last_char s = None -> s = EmptyString.
Proof. destruct s as [|c s]; simpl; [done | by destruct (last_char s)]. Qed.

Lemma endsWith_last (s : string) :
  endsWith s "/" =
  match last_char s with Some c => Ascii.eqb c "/" | None => false end.
Proof.
  induction s as [|c s IH]; [done|]. cbn [endsWith last_char].
  rewrite IH. destruct (last_char s) as [d|] eqn:Hd.
  - destruct s as [|e s]; [done|]. simpl. by destruct (Ascii.eqb c "/").
  - apply last_char_None in Hd as ->. simpl. by destruct (Ascii.eqb c "/").
Qed.

Lemma last_char_app (a b : string) :
  last_char (a ++ b) =
  match last_char b with Some d => Some d | None => last_char a end.
Proof.
  induction a as [|c a IH].
  - rewrite append_nil_l. by destruct (last_char b).
  - rewrite append_cons. cbn [last_char]. rewrite IH.
    by destruct (last_char b), (last_char a).
Qed.

Lemma last_char_clean (s : string) (d : ascii) :
  clean "/?#" s = true -> last_char s = Some d -> Ascii.eqb d "/" = false.
Proof.
  unfold clean. induction s as [|c s IH]; [done|]. simpl.
  intros [Hc Hs]%andb_prop. destruct (last_char s) as [e|].
  - intros [= ->]. by apply IH.
  - intros [= ->]. by apply negb_true_iff, clean_weaken in Hc as [_ ?].
Qed.

Lemma last_char_truthy (s : string) :
  truthy s = true -> ∃ d, last_char s = Some d.
Proof.
  destruct s as [|c s]; [done|]. intros _. simpl.
  destruct (last_char s); eauto.
Qed.

Lemma last_char_segments (segs : list string) :
  Forall (fun s => clean "/?#" s = true) segs ->
  Forall (fun s => truthy s = true) segs ->
  ∀ a d0, last_char a = Some d0 -> Ascii.eqb d0 "/" = false ->
    ∃ d, last_char (a ++ Ecma.serialize_path segs) = Some d ∧
         Ascii.eqb d "/" = false.
Proof.
  intros Hclean. induction Hclean as [|x l Hx _ IH]; intros Htruthy a d0 Ha Hd0.
  - exists d0. by rewrite append_nil_r.
  - apply Forall_cons in Htruthy as [Htx Htl].
    destruct (last_char_truthy _ Htx) as [d Hd].
    rewrite serialize_path_cons.
    replace (a ++ String "/" (x ++ Ecma.serialize_path l))%string
      with ((a ++ String "/" x) ++ Ecma.serialize_path l)%string
      by by rewrite append_assoc, append_cons.
    apply (IH Htl _ d).
    + rewrite last_char_app. cbn [last_char]. by rewrite Hd.
    + by eapply last_char_clean.
Qed.

Lemma plain_segment_facts (s : string) :
  plain_segment s = true ->
  clean "/?#" s = true ∧ truthy s = true ∧
  clean "/?#" (Ecma.encode_all s) = true ∧
  truthy (Ecma.encode_all s) = true ∧
  Ecma.single_dot (Ecma.encode_all s) = false ∧
  Ecma.double_dot (Ecma.encode_all s) = false.
Proof.
  unfold plain_segment.
  intros [[[Ht Hc]%andb_prop Hd1%negb_true_iff]%andb_prop
            Hd2%negb_true_iff]%andb_prop.
  split_and!; auto using encode_all_clean, encode_all_truthy,
    encode_all_single_dot, encode_all_double_dot.
Qed.

Lemma valid_host_facts (host : string) :
  Ecma.valid_host host = true ->
  forallb Ecma.host_char (list_ascii_of_string host) = true ∧
  truthy host = true.
Proof.
  unfold Ecma.valid_host. intros [[Hc Hl]%andb_prop _]%andb_prop.
  split; [done|]. by destruct host.
Qed.

Lemma clean_tail (segs : list string) (slash : bool) :
  Forall (fun s => clean "/?#" s = true) segs ->
  clean "?#" (Ecma.serialize_path segs ++ (if slash then "/" else EmptyString))
  = true.
Proof.
  intros Hall. rewrite clean_app. apply andb_true_intro. split;
    [|by destruct slash].
  induction Hall as [|x l Hx _ IH]; [done|].
  rewrite serialize_path_cons.
  change (clean "?#" (x ++ Ecma.serialize_path l) = true).
  rewrite clean_app, IH, andb_true_r. clear IH. unfold clean in *.
  induction x as [|c x IHx]; [done|]. simpl in *.
  apply andb_prop in Hx as [Hc Hx]. apply negb_true_iff, clean_weaken in Hc
    as [Hc _]. by rewrite Hc, IHx.
Qed.

Lemma new_URL_plain (host : string) (E : list string) (slash : bool) :
  Ecma.valid_host host = true ->
  Forall (fun s => clean "/?#" s = true) E ->
  Ecma.new_URL ("https://" ++ host ++ Ecma.serialize_path E
                  ++ (if slash then "/" else EmptyString))
  = Normal {| hostname := host;
              pathname := Ecma.parse_path
                (Ecma.serialize_path E ++ (if slash then "/" else EmptyString)) |}.
Proof.
  intros Hhost HEc. destruct (valid_host_facts _ Hhost) as [Hchars _].
  set (tail := (Ecma.serialize_path E ++ (if slash then "/" else EmptyString))%string).
  unfold Ecma.new_URL.
  change (Ecma.after_scheme ("https://" ++ host ++ tail))
    with (Some (host ++ tail)%string).
  cbv beta iota.
  assert (Hh : Ecma.break_at "/?#" (host ++ tail) = (host, tail)).
  { apply break_at_clean; [by apply host_clean|]. subst tail.
    destruct E as [|x l].
    - destruct slash; [right; by eexists _, _ | by left].
    - right. rewrite serialize_path_cons, append_cons. by eexists _, _. }
  assert (Hq : Ecma.break_at "?#" tail = (tail, EmptyString)).
  { rewrite <- (append_nil_r tail) at 1.
    apply break_at_clean; [by apply clean_tail | by left]. }
  by rewrite Hh, Hq, Hhost.
Qed.



(** ** The time stamp of the log line *)

Lemma below (k : nat) (f : N -> bool) :
  forallb f (map N.of_nat (seq 0 k)) = true ->
  ∀ n, (n < N.of_nat k)%N -> f n = true.
Proof.
  intros Hall n Hn. rewrite forallb_forall in Hall. apply Hall.
  apply in_map_iff. exists (N.to_nat n). split; [apply N2Nat.id|].
  apply in_seq. lia.
Qed.

Lemma padStart_two (n : N) :
  (n < 100)%N -> padStart 2 "0" (toString n) = two_digits n.
Proof.
  intros Hn. apply String.eqb_eq.
  apply (below 100 (fun n => String.eqb (padStart 2 "0" (toString n))
                               (two_digits n))); [by vm_compute | done].
Qed.

Lemma append_length (a b : string) :
  String.length (a ++ b) = String.length a + String.length b.
Proof. induction a as [|c a IH]; [done|]. rewrite append_cons. simpl. lia. Qed.



(** ** When the build fails *)

Lemma forEach_decomposed (P : Platform) (items : list Item) :
  ∀ t t', forEach P items t = Normal t' ->
    Forall (fun it => ∃ d, decompose P it = Normal d) items.
Proof.
  induction items as [|it items IH]; intros t t' H; [constructor|].
  simpl in H. bind_inv H. constructor; [|by eapply IH].
  unfold add_item in H0. bind_inv H0. eauto.
Qed.

(** X12.  Names of [Object.prototype] apart, the build fails exactly when
    an item fails to decompose: if no part of any item names an inherited
    member, it returns a tree if and only if every item decomposes. *)
Theorem build_fails_on_decomposition_only (P : Platform) (items : list Item) :
  (∀ it isd parts, it ∈ items -> decompose P it = Normal (isd, parts) ->
     Forall (fun part => inherited part = false) parts) ->
  (∃ t, transformToTree P items = Normal t) ↔
  Forall (fun it => ∃ d, decompose P it = Normal d) items.
Proof.
  intros Hplain. split.
  - intros [t Ht]. by eapply forEach_decomposed.
  - intros Hall. apply build_returns. apply Forall_forall. intros it Hin.
    rewrite Forall_forall in Hall. destruct (Hall it Hin) as [[isd parts] Hd].
    exists isd, parts. eauto.
Qed.

Lemma build_fails_on_decomposition_only_witness :
  (∃ t, transformToTree node [item "https://h/a"; item "no url"] = Normal t) ↔
  Forall (fun it => ∃ d, decompose node it = Normal d)
    [item "https://h/a"; item "no url"].
Proof.
  apply (build_fails_on_decomposition_only node).
  intros it isd parts Hin Hd.
  apply elem_of_cons in Hin as [->|Hin].
  - vm_compute in Hd. injection Hd as <- <-. repeat constructor.
  - apply list_elem_of_singleton in Hin as ->. vm_compute in Hd. discriminate.
Defined.
